(** * bidoof: instruction algebra and program execution engine

    A shallow embedding of the TypeScript sources of bidoof
    (instruction.ts, instructions.ts, program.ts, run-program.ts, index.ts)
    together with the properties of its specification.

    JavaScript values live in an explicit store: objects and arrays are
    store cells addressed by a location, so that in-place mutation and
    reference identity ([===] on objects) can be stated.  A computation is
    a function from the store to a result that is either a returned value
    or a thrown error, each with the store it leaves behind. *)

From Stdlib Require Import ZArith Ascii String List Bool Lia DecimalString.
From stdpp Require Import base list strings numbers.
Import ListNotations.
Set Warnings "-register-all".
Local Open Scope Z_scope.
Local Open Scope string_scope.
Local Open Scope list_scope.
Local Open Scope nat_scope.

(** ** Values and the store *)

Abbreviation loc := nat.

(** The modelled fragment of JavaScript data: the primitives (numbers are
    integers) and references to objects and arrays. *)
Inductive Value : Type :=
| VUndefined
| VNull
| VBool (b : bool)
| VNum (n : Z)
| VStr (s : string)
| VRef (l : loc).

(** A store cell: a plain object (properties in insertion order) or an
    array. *)
Inductive Obj : Type :=
| OObject (props : list (string * Value))
| OArray (elems : list Value).

Abbreviation Heap := (list Obj).

#[global] Instance Value_eq_dec : EqDecision Value.
Proof. solve_decision. Defined.

#[global] Instance Obj_eq_dec : EqDecision Obj.
Proof. solve_decision. Defined.

(** ** Computations: store passing with exceptions *)

(** [Error message] is [new Error(message)]; [TypeError] is the built-in
    error of calling something that is not a function, of reading a
    property of [null] or [undefined] and of deleting a property that
    cannot be deleted; [RangeError] is the built-in error of an invalid
    array length.  [InvalidPathError] is not a class of JavaScript: it is
    the name the specification gives to the failure of a write at a path,
    and stands for the writes that the arrays of the model cannot take (see
    [setProp]). *)
Inductive JsError : Type :=
| Error (message : string)
| TypeError
| RangeError
| InvalidPathError.

Inductive Result (A : Type) : Type :=
| Ok (a : A) (h : Heap)
| Throw (e : JsError) (h : Heap).
Arguments Ok {A} a h.
Arguments Throw {A} e h.

Definition M (A : Type) : Type := Heap -> Result A.

Definition ret {A} (a : A) : M A := fun h => Ok a h.

Definition bind {A B} (m : M A) (k : A -> M B) : M B :=
  fun h => match m h with
           | Ok a h' => k a h'
           | Throw e h' => Throw e h'
           end.

Notation "'let*' x ':=' m 'in' k" := (bind m (fun x => k))
  (at level 10, x pattern, m at level 100, k at level 200).

(** The store a computation leaves behind, whatever its outcome. *)
Definition heap_of {A} (r : Result A) : Heap :=
  match r with
  | Ok _ h => h
  | Throw _ h => h
  end.

(** [for (const x of xs) { s = body(s, x) }] *)
Fixpoint for_of {A S} (xs : list A) (body : S -> A -> M S) (s : S) : M S :=
  match xs with
  | [] => ret s
  | x :: xs' => let* s' := body s x in for_of xs' body s'
  end.

(** A loop body either falls through to the next iteration or executes
    [break]. *)
Inductive Flow (S : Type) : Type :=
| Continue (s : S)
| Break (s : S).
Arguments Continue {S} s.
Arguments Break {S} s.

Fixpoint for_of_break {A S} (xs : list A) (body : S -> A -> M (Flow S))
    (s : S) : M S :=
  match xs with
  | [] => ret s
  | x :: xs' =>
      let* f := body s x in
      match f with
      | Continue s' => for_of_break xs' body s'
      | Break s' => ret s'
      end
  end.

(** ** instruction.ts *)

(** An instruction carries one function, its [modifier]; the private
    [INSTRUCTION] symbol that tags it is the constructor of the record. *)
Record Instruction : Type := makeInstruction {
  modifier : Value -> M Value
}.

(** ** program.ts and run-program.ts *)

Record Options : Type := { stopAfterFirstMatch : bool }.

Definition defaultOptions : Options := {| stopAfterFirstMatch := false |}.

Record RunResult : Type := { matched : bool; output : Value }.

Section Engine.

(** The shape-matching library (serializable-types) is external: the
    engine only coerces a description to a type definition and asks
    whether a value is of that type.  The answer may depend on the
    contents of the store, which it does not change. *)
Context {Description TypeDef : Type}.
Variable coerceToType : Description -> TypeDef.
Variable isOfType : Value -> TypeDef -> Heap -> bool.

Record Program : Type := {
  matcher : TypeDef;
  instructions : list Instruction
}.

(** [new Program(matcher)] *)
Definition newProgram (item : Description) : Program :=
  {| matcher := coerceToType item; instructions := [] |}.

(** [program.matches(input)] *)
Definition matches (program : Program) (input : Value) : M bool :=
  fun h => Ok (isOfType input (matcher program) h) h.

(** [program.instructions.push(item)] *)
Definition pushInstruction (program : Program) (item : Instruction)
  : Program :=
  {| matcher := matcher program;
     instructions := instructions program ++ [item] |}.

(** An element of a program description: anything that is not tagged as
    an instruction is a matcher description. *)
Inductive Token : Type :=
| TDescription (d : Description)
| TInstruction (i : Instruction).

Definition isInstruction (item : Token) : bool :=
  match item with
  | TInstruction _ => true
  | TDescription _ => false
  end.

Definition instructionBeforeMatcher : JsError :=
  Error "Bidoof received an instruction before receiving a matcher (a description of the object(s) to apply the instruction(s) to). Instructions should always come after matchers.".

(** The state of the parsing loop: [programs] and [currentProgram]. *)
Definition ParseState : Type := (list Program * option Program)%type.

Definition seal (st : ParseState) : list Program :=
  match snd st with
  | Some currentProgram => fst st ++ [currentProgram]
  | None => fst st
  end.

Definition parseItem (st : ParseState) (item : Token)
  : JsError + ParseState :=
  match item with
  | TInstruction i =>
      match snd st with
      | None => inl instructionBeforeMatcher
      | Some currentProgram =>
          inr (fst st, Some (pushInstruction currentProgram i))
      end
  | TDescription d => inr (seal st, Some (newProgram d))
  end.

Fixpoint parseLoop (items : list Token) (st : ParseState)
  : JsError + ParseState :=
  match items with
  | [] => inr st
  | item :: rest =>
      match parseItem st item with
      | inl e => inl e
      | inr st' => parseLoop rest st'
      end
  end.

Definition parseIntoPrograms (matchersAndInstructions : list Token)
  : JsError + list Program :=
  match parseLoop matchersAndInstructions ([], None) with
  | inl e => inl e
  | inr st => inr (seal st)
  end.

(** A matcher description with the instructions that follow it, as
    tokens and as the program they describe. *)
Definition groupTokens (g : Description * list Instruction) : list Token :=
  TDescription (fst g) :: map TInstruction (snd g).

Definition groupProgram (g : Description * list Instruction) : Program :=
  {| matcher := coerceToType (fst g); instructions := snd g |}.

(** The loop state of [runProgram]: [matched] and [currentTarget]. *)
Definition runInstruction (program : Program) (st : bool * Value)
    (instruction : Instruction) : M (bool * Value) :=
  let* m := matches program (snd st) in
  if m : bool then
    let* v := modifier instruction (snd st) in ret (true, v)
  else ret st.

Definition runProgram (program : Program) (input : Value) : M RunResult :=
  let* st := for_of (instructions program) (runInstruction program)
               (false, input) in
  ret {| matched := fst st; output := snd st |}.

Definition runPrograms (programs : list Program) (options : Options)
    (input : Value) : M Value :=
  for_of_break programs
    (fun currentTarget program =>
       let* r := runProgram program currentTarget in
       if matched r && stopAfterFirstMatch options
       then ret (Break (output r))
       else ret (Continue (output r)))
    input.

(** index.ts: the description is parsed once, when the transform is
    built; the returned function only runs the programs.  A caller that
    gives no options gets [defaultOptions]. *)
Definition makeBidoof (programDescription : list Token) (options : Options)
  : JsError + (Value -> M Value) :=
  match parseIntoPrograms programDescription with
  | inl e => inl e
  | inr programs => inr (fun input => runPrograms programs options input)
  end.

End Engine.

(** ** Properties of objects and arrays *)

(** A property key is a string or a number, as in a path
    [Array<string | number>]. *)
Inductive Key : Type :=
| KStr (s : string)
| KNum (n : nat).

(** The property name a key denotes: [String(key)]. *)
Definition keyName (k : Key) : string :=
  match k with
  | KStr s => s
  | KNum n => NilEmpty.string_of_uint (Nat.to_uint n)
  end.

(** A string is an array index when it is the canonical decimal writing
    of a number. *)
Definition indexOfString (s : string) : option nat :=
  match NilEmpty.uint_of_string s with
  | Some u =>
      let n := Nat.of_uint u in
      if String.eqb (keyName (KNum n)) s then Some n else None
  | None => None
  end.

Definition keyIndex (k : Key) : option nat :=
  match k with
  | KNum n => Some n
  | KStr s => indexOfString s
  end.

Fixpoint assocGet (name : string) (props : list (string * Value))
  : option Value :=
  match props with
  | [] => None
  | (name', v) :: rest =>
      if String.eqb name name' then Some v else assocGet name rest
  end.

(** Assigning an existing property keeps its position; a new property
    goes last. *)
Fixpoint assocSet (name : string) (v : Value) (props : list (string * Value))
  : list (string * Value) :=
  match props with
  | [] => [(name, v)]
  | (name', v') :: rest =>
      if String.eqb name name' then (name', v) :: rest
      else (name', v') :: assocSet name v rest
  end.

Fixpoint assocDelete (name : string) (props : list (string * Value))
  : list (string * Value) :=
  match props with
  | [] => []
  | (name', v') :: rest =>
      if String.eqb name name' then rest
      else (name', v') :: assocDelete name rest
  end.

(** [elems[i] = v]: writing past the end extends the array. *)
Definition arraySet (i : nat) (v : Value) (elems : list Value) : list Value :=
  if decide (i < length elems) then <[i:=v]> elems
  else elems ++ replicate (i - length elems) VUndefined ++ [v].

Definition isLengthKey (k : Key) : bool := String.eqb (keyName k) "length".

(** [o[k]]: an own property of an object, an element of an array or its
    [length].  The model has no function values: a method inherited from a
    prototype reads as [undefined]. *)
Definition getProp (o : Obj) (k : Key) : Value :=
  match o with
  | OObject props => default VUndefined (assocGet (keyName k) props)
  | OArray elems =>
      match keyIndex k with
      | Some i => default VUndefined (elems !! i)
      | None =>
          if isLengthKey k then VNum (Z.of_nat (length elems)) else VUndefined
      end
  end.

(** The greatest length of an array, [2^32 - 1]; the indices are the
    numbers below it. *)
Definition maxArrayLength : Z := 4294967295.

(** The number that a value assigned to [length] stands for.  The
    conversion of strings and of objects to numbers is not modelled. *)
Definition lengthOfValue (v : Value) : JsError + Z :=
  match v with
  | VNum n => inr n
  | VNull => inr 0%Z
  | VBool b => inr (if b then 1 else 0)%Z
  | VUndefined => inl RangeError
  | VStr _ | VRef _ => inl InvalidPathError
  end.

(** [elems.length = n]: the array is cut or extended with holes. *)
Definition resize (n : nat) (elems : list Value) : list Value :=
  take n elems ++ replicate (n - length elems) VUndefined.

(** [o[k] = v].  An object takes any key.  An array takes an index, and
    [length] when the value is a number from 0 to [2^32 - 1], a
    [RangeError] otherwise.  The arrays of the model hold nothing but
    their elements: for any other key the write fails with
    [InvalidPathError] (in the code immer refuses such a key on the draft
    of an array, and on an array that is not a draft the assignment adds a
    property that the model cannot hold). *)
Definition setProp (k : Key) (v : Value) (o : Obj) : JsError + Obj :=
  match o with
  | OObject props => inr (OObject (assocSet (keyName k) v props))
  | OArray elems =>
      match keyIndex k with
      | Some i =>
          if (Z.of_nat i <? maxArrayLength)%Z
          then inr (OArray (arraySet i v elems))
          else inl InvalidPathError
      | None =>
          if isLengthKey k then
            match lengthOfValue v with
            | inr n =>
                if ((0 <=? n) && (n <=? maxArrayLength))%Z
                then inr (OArray (resize (Z.to_nat n) elems))
                else inl RangeError
            | inl e => inl e
            end
          else inl InvalidPathError
      end
  end.

(** [delete o[k]]: deleting an element of an array leaves a hole. *)
Definition deleteProp (k : Key) (o : Obj) : Obj :=
  match o with
  | OObject props => OObject (assocDelete (keyName k) props)
  | OArray elems =>
      match keyIndex k with
      | Some i => OArray (<[i:=VUndefined]> elems)
      | None => o
      end
  end.

Definition keysOf (o : Obj) : list Key :=
  match o with
  | OObject props => map (fun p => KStr (fst p)) props
  | OArray elems => map KNum (seq 0 (length elems))
  end.

Definition objValues (o : Obj) : list Value :=
  match o with
  | OObject props => map snd props
  | OArray elems => elems
  end.

(** ** Store operations *)

Definition isArrayObj (o : option Obj) : bool :=
  match o with
  | Some (OArray _) => true
  | _ => false
  end.

Definition alloc (o : Obj) : M Value :=
  fun h => Ok (VRef (length h)) (h ++ [o]).

(** The own properties of a string: its characters, by index, and its
    [length].  A string of the model is a sequence of characters with
    codes below 256. *)
Definition stringProp (s : string) (k : Key) : Value :=
  match keyIndex k with
  | Some i =>
      match String.get i s with
      | Some c => VStr (String c EmptyString)
      | None => VUndefined
      end
  | None =>
      if isLengthKey k then VNum (Z.of_nat (String.length s)) else VUndefined
  end.

Definition stringHasOwn (s : string) (name : string) : bool :=
  match indexOfString name with
  | Some i => i <? String.length s
  | None => String.eqb name "length"
  end.

(** [v[k]] for a [v] that is neither [null] nor [undefined]; numbers and
    booleans have no modelled properties. *)
Definition readProp (v : Value) (k : Key) : M Value :=
  fun h =>
    match v with
    | VRef l =>
        match h !! l with
        | Some o => Ok (getProp o k) h
        | None => Ok VUndefined h
        end
    | VStr s => Ok (stringProp s k) h
    | _ => Ok VUndefined h
    end.

(** [object[k] = v] on the object at [l]; a write that fails leaves the
    store as it is. *)
Definition writeProp (l : loc) (k : Key) (v : Value) : M unit :=
  fun h =>
    match h !! l with
    | Some o =>
        match setProp k v o with
        | inr o' => Ok tt (<[l:=o']> h)
        | inl e => Throw e h
        end
    | None => Ok tt h
    end.

(** [input.push(...items)]; only arrays have a [push] method. *)
Definition arrayPush (input : Value) (items : list Value) : M unit :=
  fun h =>
    match input with
    | VRef l =>
        match h !! l with
        | Some (OArray elems) => Ok tt (<[l:=OArray (elems ++ items)]> h)
        | _ => Throw TypeError h
        end
    | _ => Throw TypeError h
    end.

(** [input.unshift(...items)] *)
Definition arrayUnshift (input : Value) (items : list Value) : M unit :=
  fun h =>
    match input with
    | VRef l =>
        match h !! l with
        | Some (OArray elems) => Ok tt (<[l:=OArray (items ++ elems)]> h)
        | _ => Throw TypeError h
        end
    | _ => Throw TypeError h
    end.

(** What [concat] appends for an argument: the elements of an array, any
    other argument itself. *)
Definition concatSpread (h : Heap) (input : Value) : list Value :=
  match input with
  | VRef l =>
      match h !! l with
      | Some (OArray elems) => elems
      | _ => [input]
      end
  | _ => [input]
  end.

(** [items.concat(input)]: a new array, [items] being the array of the
    rest parameter. *)
Definition arrayConcat (items : list Value) (input : Value) : M Value :=
  fun h => alloc (OArray (items ++ concatSpread h input)) h.

(** [delete input[propertyName]], in a module, that is in strict mode: a
    [TypeError] on [null] and [undefined], and on a property that cannot be
    deleted, which are the [length] of an array and the [length] and the
    characters of a string. *)
Definition deleteOp (input : Value) (propertyName : string) : M unit :=
  fun h =>
    match input with
    | VUndefined | VNull => Throw TypeError h
    | VStr s =>
        if stringHasOwn s propertyName then Throw TypeError h else Ok tt h
    | VRef l =>
        if isArrayObj (h !! l) && String.eqb propertyName "length"
        then Throw TypeError h
        else Ok tt (alter (deleteProp (KStr propertyName)) l h)
    | _ => Ok tt h
    end.

(** ** The path accessor utility (lodash get and set) *)

(** A path is a dotted string or an explicit sequence of keys. *)
Inductive Path : Type :=
| PString (s : string)
| PKeys (keys : list Key).

Fixpoint splitDots (s : string) : list string :=
  match s with
  | EmptyString => [EmptyString]
  | String c rest =>
      if Ascii.eqb c "."%char then EmptyString :: splitDots rest
      else match splitDots rest with
           | seg :: segs => String c seg :: segs
           | [] => [String c EmptyString]
           end
  end.

Definition castPath (path : Path) : list Key :=
  match path with
  | PString s => map KStr (splitDots s)
  | PKeys keys => keys
  end.

Fixpoint baseGet (object : Value) (keys : list Key) : M Value :=
  match keys with
  | [] => ret object
  | key :: rest =>
      match object with
      | VUndefined | VNull => ret VUndefined
      | _ => let* child := readProp object key in baseGet child rest
      end
  end.

(** Modelled from the spec: the path accessor [get(value, path)] of
    lodash, which is not part of the repository: the child found by
    following the keys of [path], or [undefined]. *)
Definition lodashGet (object : Value) (path : Path) : M Value :=
  match castPath path with
  | [] => ret VUndefined
  | keys => baseGet object keys
  end.

Definition isIndex (k : Key) : bool :=
  match keyIndex k with
  | Some _ => true
  | None => false
  end.

Fixpoint baseSet (nested : loc) (keys : list Key) (value : Value) : M unit :=
  match keys with
  | [] => ret tt
  | [key] => writeProp nested key value
  | key :: (next :: _) as rest =>
      let* objValue := readProp (VRef nested) key in
      let* newValue :=
        match objValue with
        | VRef _ => ret objValue
        | _ => alloc (if isIndex next then OArray [] else OObject [])
        end in
      let* _ := writeProp nested key newValue in
      let* child := readProp (VRef nested) key in
      match child with
      | VRef l => baseSet l rest value
      | _ => ret tt
      end
  end.

(** Modelled from the spec: the path accessor [set(value, path, newValue)]
    of lodash, which is not part of the repository: it mutates [value] in
    place and creates the intermediate containers that are missing (an
    array before an index, an object otherwise); a target that is not an
    object is left alone.  It fails when the path cannot be written: with
    a [RangeError] for an invalid [length] of an array, and with
    [InvalidPathError] for the other keys that an array of the model cannot
    take (see [setProp]). *)
Definition lodashSet (object : Value) (path : Path) (value : Value) : M unit :=
  match object with
  | VRef l => baseSet l (castPath path) value
  | _ => ret tt
  end.

(** ** The deep-merge utility (lodash merge) *)

(** The value that receives the merge of the source container at [srcLoc]:
    the current property value when it is a container that fits (an array
    for an array source), a new empty container otherwise. *)
Definition mergeTarget (objValue : Value) (srcLoc : loc) : M Value :=
  fun h =>
    match objValue with
    | VRef l =>
        if isArrayObj (h !! srcLoc) && negb (isArrayObj (h !! l))
        then alloc (OArray []) h
        else Ok objValue h
    | _ =>
        alloc (if isArrayObj (h !! srcLoc) then OArray [] else OObject []) h
    end.

Fixpoint baseMerge (fuel : nat) (object source : loc) : M unit :=
  match fuel with
  | O => ret tt
  | S fuel' =>
      fun h =>
        match h !! source with
        | None => Ok tt h
        | Some src =>
            for_of (keysOf src)
              (fun _ key =>
                 let* srcValue := readProp (VRef source) key in
                 match srcValue with
                 | VRef srcLoc =>
                     let* objValue := readProp (VRef object) key in
                     let* newValue := mergeTarget objValue srcLoc in
                     let* _ := writeProp object key newValue in
                     match newValue with
                     | VRef l => baseMerge fuel' l srcLoc
                     | _ => ret tt
                     end
                 | VUndefined => ret tt
                 | _ => writeProp object key srcValue
                 end)
              tt h
        end
  end.

(** Modelled from the spec: the deep-merge utility [merge(target, source)]
    of lodash, which is not part of the repository: it mutates [target] in
    place, object keys merge recursively, array elements merge by index.
    Sources and targets that are not objects or arrays contribute nothing;
    the recursion is bounded by the number of cells of the store, which
    covers every acyclic source.  A key of the source that the target
    cannot take fails as in [setProp]. *)
Definition lodashMerge (object source : Value) : M unit :=
  match object, source with
  | VRef l, VRef s => fun h => baseMerge (S (length h)) l s h
  | _, _ => ret tt
  end.

(** ** The copy-on-write draft utility (immer produce) *)

Definition shiftValue (n : nat) (v : Value) : Value :=
  match v with
  | VRef l => VRef (n + l)
  | _ => v
  end.

Definition shiftObj (n : nat) (o : Obj) : Obj :=
  match o with
  | OObject props => OObject (map (fun p => (fst p, shiftValue n (snd p))) props)
  | OArray elems => OArray (map (shiftValue n) elems)
  end.

(** A draft of [base]: the proxy the recipe works on, the place where the
    cells of the draft start and their contents when the draft was made. *)
Record Draft : Type := {
  draftBase : Value;
  draftProxy : Value;
  draftStart : nat;
  draftPristine : list Obj
}.

(** The draft of an object is a copy of it and of all it refers to, in
    new cells: every cell of the store is copied [length h] places
    further, with its references moved along, so that the copy of the cell
    at [l] is at [length h + l] and shares nothing with the original.  A
    value that is not an object cannot be drafted and stands for itself. *)
Definition createDraft (base : Value) : M Draft :=
  fun h =>
    match base with
    | VRef l =>
        let n := length h in
        let copy := map (shiftObj n) h in
        Ok {| draftBase := base; draftProxy := VRef (n + l);
              draftStart := n; draftPristine := copy |}
           (h ++ copy)
    | _ =>
        Ok {| draftBase := base; draftProxy := base;
              draftStart := 0; draftPristine := [] |} h
    end.

(** A draft that was not changed finishes as its base, a changed one as
    the new value. *)
Definition finishDraft (d : Draft) : M Value :=
  fun h =>
    if decide (take (length (draftPristine d)) (drop (draftStart d) h)
               = draftPristine d)
    then Ok (draftBase d) h
    else Ok (draftProxy d) h.

(** Modelled from the spec: the copy-on-write utility
    [produce(value, recipe)] of immer, which is not part of the
    repository: the recipe receives a mutable draft of [value], and
    [produce] returns a new value that reflects the edits of the recipe
    and leaves the original untouched; when the recipe changed nothing the
    result is [value] itself.  The recipe returns nothing; an error of the
    recipe is the error of [produce].  Sharing of the unchanged parts
    between the result and the original is not modelled, and a draft
    behaves as the plain copy it stands for: what immer alone refuses on
    the draft of an array (deleting a property that is not an index) is not
    modelled either. *)
Definition immerProduce (base : Value) (recipe : Value -> M unit) : M Value :=
  let* d := createDraft base in
  let* _ := recipe (draftProxy d) in
  finishDraft d.

(** ** instructions.ts *)

Definition withoutMutating (instruction : Instruction) : Instruction :=
  makeInstruction (fun input =>
    immerProduce input (fun draft =>
      let* _ := modifier instruction draft in ret tt)).

Definition mergeMutate (other : Value) : Instruction :=
  makeInstruction (fun input =>
    let* _ := lodashMerge input other in ret input).

Definition mergeNoMutate (other : Value) : Instruction :=
  withoutMutating (mergeMutate other).

Definition setMutate (path : Path) (value : Value) : Instruction :=
  makeInstruction (fun input =>
    let* _ := lodashSet input path value in ret input).

Definition setNoMutate (path : Path) (value : Value) : Instruction :=
  withoutMutating (setMutate path value).

Definition transform (callback : Value -> M Value) : Instruction :=
  makeInstruction callback.

Definition modifyMutate (callback : Value -> M Value) : Instruction :=
  makeInstruction (fun input =>
    let* _ := callback input in ret input).

Definition modifyNoMutate (callback : Value -> M Value) : Instruction :=
  withoutMutating (modifyMutate callback).

Definition replace (newValue : Value) : Instruction :=
  makeInstruction (fun _ => ret newValue).

Definition appendMutate (items : list Value) : Instruction :=
  makeInstruction (fun input =>
    let* _ := arrayPush input items in ret input).

Definition appendNoMutate (items : list Value) : Instruction :=
  withoutMutating (appendMutate items).

Definition prependMutate (items : list Value) : Instruction :=
  makeInstruction (fun input =>
    let* _ := arrayUnshift input items in ret input).

Definition prependNoMutate (items : list Value) : Instruction :=
  makeInstruction (fun input => arrayConcat items input).

Definition deletePropertyMutate (propertyName : string) : Instruction :=
  makeInstruction (fun input =>
    let* _ := deleteOp input propertyName in ret input).

Definition deletePropertyNoMutate (propertyName : string) : Instruction :=
  withoutMutating (deletePropertyMutate propertyName).

Definition atMutate (path : Path) (instruction : Instruction) : Instruction :=
  makeInstruction (fun input =>
    let* child := lodashGet input path in
    let* newChild := modifier instruction child in
    let* _ := lodashSet input path newChild in
    ret input).

Definition atNoMutate (path : Path) (instruction : Instruction) : Instruction :=
  withoutMutating (atMutate path instruction).

(** ** Observing values *)

(** The contents of a value, read through the store down to a depth. *)
Inductive Tree : Type :=
| TUndefined
| TNull
| TBool (b : bool)
| TNum (n : Z)
| TStr (s : string)
| TObject (props : list (string * Tree))
| TArray (elems : list Tree)
| TCut.

Fixpoint snapshot (depth : nat) (h : Heap) (v : Value) {struct depth} : Tree :=
  match v with
  | VUndefined => TUndefined
  | VNull => TNull
  | VBool b => TBool b
  | VNum n => TNum n
  | VStr s => TStr s
  | VRef l =>
      match depth with
      | O => TCut
      | S depth' =>
          match h !! l with
          | Some (OObject props) =>
              TObject (map (fun p => (fst p, snapshot depth' h (snd p))) props)
          | Some (OArray elems) => TArray (map (snapshot depth' h) elems)
          | None => TCut
          end
      end
  end.

(** ** Well-formed stores and reachability *)

Definition validValue (h : Heap) (v : Value) : Prop :=
  match v with
  | VRef l => l < length h
  | _ => True
  end.

#[global] Instance validValue_dec h v : Decision (validValue h v).
Proof. destruct v; simpl; apply _. Defined.

(** Every reference held by a cell of the store is to a cell of the
    store. *)
Definition closedHeap (h : Heap) : Prop :=
  Forall (fun o => Forall (validValue h) (objValues o)) h.

(** [h'] has every cell of [h], with the same contents. *)
Definition preserves (h h' : Heap) : Prop :=
  forall l o, h !! l = Some o -> h' !! l = Some o.

Inductive reach (h : Heap) : loc -> loc -> Prop :=
| reach_here l : reach h l l
| reach_step l o l' l'' :
    h !! l = Some o -> VRef l' ∈ objValues o -> reach h l' l'' ->
    reach h l l''.

Definition reachable (h : Heap) (v : Value) (l : loc) : Prop :=
  exists l0, v = VRef l0 /\ reach h l0 l.

(** A function of a value is confined to its argument when the only cells
    it writes are cells reachable from the argument and cells it
    allocates. *)
Definition confined {A} (f : Value -> M A) : Prop :=
  forall v h l o,
    h !! l = Some o -> ~ reachable h v l -> heap_of (f v h) !! l = Some o.

(** The contents of [v'] in [h'] differ from those of [v] in [h]. *)
Definition changed (h : Heap) (v : Value) (h' : Heap) (v' : Value) : Prop :=
  exists depth, snapshot depth h' v' <> snapshot depth h v.

(** ** The contract of withoutMutating *)

(** The modifier of [withoutMutating(instruction)] in the words of the
    specification: produce a draft of the input, run the modifier of the
    wrapped instruction against the draft, finalize the draft into a
    result, return it. *)
Definition draftRunFinalize (instruction : Instruction) (input : Value)
  : M Value :=
  let* d := createDraft input in
  let* _ := modifier instruction (draftProxy d) in
  finishDraft d.

(** ** Example programs *)

(** A small shape-matching library to run the engine on examples. *)
Inductive Shape : Type :=
| SAny
| SNumber
| SPositive
| SExactly (v : Value).

Definition shapeCoerce (d : Shape) : Shape := d.

Definition shapeIsOfType (v : Value) (t : Shape) (h : Heap) : bool :=
  match t with
  | SAny => true
  | SNumber => match v with VNum _ => true | _ => false end
  | SPositive => match v with VNum n => (0 <? n)%Z | _ => false end
  | SExactly v' => bool_decide (v = v')
  end.

(** The callback [x => x + 1], on the values whose sum with 1 is in the
    model; [NaN] and the conversion of objects to strings are not, and
    the callback is only run on numbers below. *)
Definition plusOne (x : Value) : M Value :=
  match x with
  | VNum n => ret (VNum (n + 1))
  | VStr s => ret (VStr (s ++ "1"))
  | VBool b => ret (VNum (if b then 2 else 1))
  | VNull => ret (VNum 1)
  | VUndefined | VRef _ => ret VUndefined
  end.

(** The callback [x => x - 10], likewise. *)
Definition minusTen (x : Value) : M Value :=
  match x with
  | VNum n => ret (VNum (n - 10))
  | VBool b => ret (VNum (if b then -9 else -10))
  | VNull => ret (VNum (-10))
  | VStr _ | VUndefined | VRef _ => ret VUndefined
  end.

(** The store that holds [{a: {b: 5}}] at location 0. *)
Definition storeAB5 : Heap :=
  [OObject [("a", VRef 1)]; OObject [("b", VNum 5)]].

(** ** Instruction kinds with a mutating and a non-mutating form *)

Inductive Kind : Type :=
| KSet (path : Path) (value : Value)
| KMerge (other : Value)
| KModify (callback : Value -> M Value)
| KAppend (items : list Value)
| KDeleteProperty (propertyName : string).

(** [set.mutate], [merge.mutate], ... *)
Definition mutating (k : Kind) : Instruction :=
  match k with
  | KSet path value => setMutate path value
  | KMerge other => mergeMutate other
  | KModify callback => modifyMutate callback
  | KAppend items => appendMutate items
  | KDeleteProperty propertyName => deletePropertyMutate propertyName
  end.

(** [set], [merge], ... *)
Definition nonMutating (k : Kind) : Instruction :=
  match k with
  | KSet path value => setNoMutate path value
  | KMerge other => mergeNoMutate other
  | KModify callback => modifyNoMutate callback
  | KAppend items => appendNoMutate items
  | KDeleteProperty propertyName => deletePropertyNoMutate propertyName
  end.

(** The callback of [modify] is a function of the caller; it is expected
    to change the value it receives and nothing else. *)
Definition callbackConfined (k : Kind) : Prop :=
  match k with
  | KModify callback => confined callback
  | _ => True
  end.

Definition isArrayValue (h : Heap) (v : Value) : bool :=
  match v with
  | VRef l => isArrayObj (h !! l)
  | _ => false
  end.

(** ** Reasoning about the store *)

(** [hoare P m Q E]: from a store that satisfies [P], [m] returns a value
    and a store that satisfy [Q], or throws in a store that satisfies
    [E]. *)
Definition hoare {A} (P : Heap -> Prop) (m : M A) (Q : A -> Heap -> Prop)
    (E : Heap -> Prop) : Prop :=
  forall h, P h ->
    match m h with
    | Ok a h' => Q a h'
    | Throw _ h' => E h'
    end.

(** A region is a set of locations; a value is within it when it is not a
    reference or refers into it. *)
Definition within (R : loc -> Prop) (v : Value) : Prop :=
  match v with
  | VRef l => R l
  | _ => True
  end.

(** The cells of the region only refer into the region. *)
Definition regionClosed (R : loc -> Prop) (h : Heap) : Prop :=
  forall l o v, R l -> h !! l = Some o -> v ∈ objValues o -> within R v.

(** The cells of [h0] outside the region are in [h], as they were. *)
Definition frames (R : loc -> Prop) (h0 h : Heap) : Prop :=
  length h0 <= length h
  /\ forall l o, ~ R l -> h0 !! l = Some o -> h !! l = Some o.

Definition regionInv (R : loc -> Prop) (h0 h : Heap) : Prop :=
  frames R h0 h /\ regionClosed R h.

(** ** More examples *)

(** The callback [draft => { draft.a.b = 6 }]. *)
Definition setB6 (draft : Value) : M Value :=
  let* _ := lodashSet draft (PKeys [KStr "a"; KStr "b"]) (VNum 6) in
  ret VUndefined.

(** The contents [{a: {b: n}}]. *)
Definition treeAB (n : Z) : Tree :=
  TObject [("a", TObject [("b", TNum n)])].

(** ** Running instructions in sequence *)

(** [v = i1.modifier(v); v = i2.modifier(v); ...] *)
Definition applyAll (instructions : list Instruction) (input : Value)
  : M Value :=
  for_of instructions (fun currentTarget instruction =>
    modifier instruction currentTarget) input.

(** Whether a program has an instruction to run. *)
Definition hasInstructions (ins : list Instruction) : bool :=
  match ins with
  | [] => false
  | _ => true
  end.

(** [typeof v === "object" && v !== null]: the values that live in the
    store. *)
Definition isObjectValue (v : Value) : bool :=
  match v with
  | VRef _ => true
  | _ => false
  end.

(** ** The older engine (the first index.ts) *)

(** The file that held the whole library before program.ts,
    run-program.ts and instructions.ts: instructions are tagged records
    with a [kind], interpreted by [processInstruction]. *)
Module Legacy.

(** The instructions that the API builds, by kind; [IOther] stands for an
    instruction of any other kind, which only code that holds the private
    [BIDOOF_INSTRUCTION] symbol could build. *)
Inductive BidoofInstruction : Type :=
| IMerge (other : Value)
| IMergeMutate (other : Value)
| ISet (path : Path) (value : Value)
| ISetMutate (path : Path) (value : Value)
| IModify (modifierFn : Value -> M Value)
| IModifyMutate (modifierFn : Value -> M Value)
| IReplace (newValue : Value)
| IOther (otherKind : string).

Definition kind (instruction : BidoofInstruction) : string :=
  match instruction with
  | IMerge _ => "merge"
  | IMergeMutate _ => "mergeMutate"
  | ISet _ _ => "set"
  | ISetMutate _ _ => "setMutate"
  | IModify _ => "modify"
  | IModifyMutate _ => "modifyMutate"
  | IReplace _ => "replace"
  | IOther otherKind => otherKind
  end.

Section Engine.

Context {Description TypeDef : Type}.
Variable coerceToType : Description -> TypeDef.
Variable isOfType : Value -> TypeDef -> Heap -> bool.

(** [immerProduce(target, modifierFn)] with the function of the caller as
    the recipe: what immer does with a recipe that returns a value is not
    described by the specification, and is left open. *)
Variable produceWith : Value -> (Value -> M Value) -> M Value.

Definition processInstruction (target : Value)
    (instruction : BidoofInstruction) : M Value :=
  match instruction with
  | IMerge other =>
      immerProduce target (fun draft => lodashMerge draft other)
  | IMergeMutate other =>
      let* _ := lodashMerge target other in ret target
  | ISet path value =>
      immerProduce target (fun draft => lodashSet draft path value)
  | ISetMutate path value =>
      let* _ := lodashSet target path value in ret target
  | IModify modifierFn => produceWith target modifierFn
  | IModifyMutate modifierFn =>
      let* _ := modifierFn target in ret target
  | IReplace newValue => ret newValue
  | IOther _ =>
      fun h =>
        Throw (Error ("Unhandled bidoof instruction: " ++ kind instruction)) h
  end.

Record BidoofGroup : Type := {
  matcher : TypeDef;
  instructions : list BidoofInstruction
}.

Inductive Token : Type :=
| TDescription (d : Description)
| TInstruction (i : BidoofInstruction).

Definition isInstruction (item : Token) : bool :=
  match item with
  | TInstruction _ => true
  | TDescription _ => false
  end.

Definition instructionBeforeDescription : JsError :=
  Error "Received a bidoof instruction before receiving a description of the object(s) to apply the instructions to. Bidoof instructions should always come after descriptions.".

(** The state of the loop of [collectGroups]: [groups] and
    [currentGroup]. *)
Definition CollectState : Type := (list BidoofGroup * option BidoofGroup)%type.

Definition pushGroup (st : CollectState) : list BidoofGroup :=
  match snd st with
  | Some currentGroup => fst st ++ [currentGroup]
  | None => fst st
  end.

Definition collectItem (st : CollectState) (item : Token)
  : JsError + CollectState :=
  match item with
  | TInstruction i =>
      match snd st with
      | None => inl instructionBeforeDescription
      | Some currentGroup =>
          inr (fst st,
               Some {| matcher := matcher currentGroup;
                       instructions := instructions currentGroup ++ [i] |})
      end
  | TDescription d =>
      inr (pushGroup st,
           Some {| matcher := coerceToType d; instructions := [] |})
  end.

Fixpoint collectLoop (items : list Token) (st : CollectState)
  : JsError + CollectState :=
  match items with
  | [] => inr st
  | item :: rest =>
      match collectItem st item with
      | inl e => inl e
      | inr st' => collectLoop rest st'
      end
  end.

Definition collectGroups (matchersAndInstructions : list Token)
  : JsError + list BidoofGroup :=
  match collectLoop matchersAndInstructions ([], None) with
  | inl e => inl e
  | inr st => inr (pushGroup st)
  end.

(** The body of the loop of [doBidoof]: the matcher is tested against
    [target], the value the transform was called with. *)
Definition applyGroup (target : Value) (options : Options)
    (currentTarget : Value) (group : BidoofGroup) : M (Flow Value) :=
  fun h =>
    if isOfType target (matcher group) h then
      (let* v := for_of (instructions group)
                   (fun current instruction =>
                      processInstruction current instruction)
                   currentTarget in
       if stopAfterFirstMatch options then ret (Break v)
       else ret (Continue v)) h
    else Ok (Continue currentTarget) h.

Definition doBidoof (target : Value) (options : Options)
    (matchersAndInstructions : list Token) : M Value :=
  match collectGroups matchersAndInstructions with
  | inl e => fun h => Throw e h
  | inr groups => for_of_break groups (applyGroup target options) target
  end.

(** [makeBidoof(matchersAndInstructions)] or
    [makeBidoof(options)(matchersAndInstructions)], by what the argument
    is. *)
Definition makeBidoof (optionsOrMatcherAndInstructions : list Token + Options)
  : (Value -> M Value) + (list Token -> Value -> M Value) :=
  match optionsOrMatcherAndInstructions with
  | inl matchersAndInstructions =>
      inl (fun target => doBidoof target defaultOptions matchersAndInstructions)
  | inr options =>
      inr (fun matchersAndInstructions target =>
             doBidoof target options matchersAndInstructions)
  end.

End Engine.

(** The instruction of instructions.ts that has the name of the kind;
    [modify] is left out: its recipe returns a value. *)
Definition successor (instruction : BidoofInstruction) : option Instruction :=
  match instruction with
  | IMerge other => Some (mergeNoMutate other)
  | IMergeMutate other => Some (mergeMutate other)
  | ISet path value => Some (setNoMutate path value)
  | ISetMutate path value => Some (setMutate path value)
  | IModifyMutate modifierFn => Some (modifyMutate modifierFn)
  | IReplace newValue => Some (replace newValue)
  | IModify _ | IOther _ => None
  end.

End Legacy.

(** A description for the older engine read as one for the newer, given
    what each older instruction becomes. *)
Definition translateToken {Description}
    (f : Legacy.BidoofInstruction -> Instruction)
    (item : @Legacy.Token Description) : @Token Description :=
  match item with
  | Legacy.TDescription d => TDescription d
  | Legacy.TInstruction i => TInstruction (f i)
  end.

Definition translateGroup {TypeDef}
    (f : Legacy.BidoofInstruction -> Instruction)
    (group : @Legacy.BidoofGroup TypeDef) : @Program TypeDef :=
  {| matcher := Legacy.matcher group;
     instructions := map f (Legacy.instructions group) |}.

(** * Properties *)

(** ** Loops *)

Lemma for_of_app {A S} (xs ys : list A) (body : S -> A -> M S) (s : S) h :
  for_of (xs ++ ys) body s h =
  match for_of xs body s h with
  | Ok s' h' => for_of ys body s' h'
  | Throw e h' => Throw e h'
  end.
Proof.
  revert s h. induction xs as [|x xs IH]; intros s h; simpl; [done|].
  unfold bind. destruct (body s x h) as [s' h'|e h']; [apply IH | done].
Qed.

(** A loop whose body does nothing in the state it starts in does
    nothing. *)
Lemma for_of_stuck {A S} (xs : list A) (body : S -> A -> M S) (s : S) h :
  (forall x, body s x h = Ok s h) ->
  for_of xs body s h = Ok s h.
Proof.
  intros Hbody. induction xs as [|x xs IH]; simpl; [done|].
  unfold bind. by rewrite Hbody.
Qed.

Section EngineProperties.

Context {Description TypeDef : Type}.
Variable coerceToType : Description -> TypeDef.
Variable isOfType : Value -> TypeDef -> Heap -> bool.

Local Abbreviation Program := (@Program TypeDef).
Local Abbreviation Token := (@Token Description).
Local Abbreviation runInstruction := (runInstruction isOfType).
Local Abbreviation runProgram := (runProgram isOfType).
Local Abbreviation runPrograms := (runPrograms isOfType).
Local Abbreviation parseIntoPrograms := (parseIntoPrograms coerceToType).
Local Abbreviation parseLoop := (parseLoop coerceToType).
Local Abbreviation makeBidoof := (makeBidoof coerceToType isOfType).
Local Abbreviation groupProgram := (groupProgram coerceToType).

(** *** runProgram *)

Lemma runInstruction_skip (program : Program) st i h :
  isOfType (snd st) (matcher program) h = false ->
  runInstruction program st i h = Ok st h.
Proof. intros Hm. unfold runInstruction, bind, matches. by rewrite Hm. Qed.

Lemma runProgram_snoc (m : TypeDef) pre i input h :
  runProgram {| matcher := m; instructions := pre ++ [i] |} input h =
  match runProgram {| matcher := m; instructions := pre |} input h with
  | Throw e h1 => Throw e h1
  | Ok r h1 =>
      if isOfType (output r) m h1 then
        match modifier i (output r) h1 with
        | Ok v h2 => Ok {| matched := true; output := v |} h2
        | Throw e h2 => Throw e h2
        end
      else Ok r h1
  end.
Proof.
  unfold runProgram, bind. simpl. rewrite for_of_app.
  destruct (for_of pre _ _ h) as [[b v] h1|e h1]; simpl; [|done].
  unfold runInstruction at 1. unfold bind, matches, ret. simpl.
  destruct (isOfType v m h1); [|done].
  by destruct (modifier i v h1).
Qed.

Lemma runProgram_app (m : TypeDef) pre post input h :
  runProgram {| matcher := m; instructions := pre ++ post |} input h =
  match runProgram {| matcher := m; instructions := pre |} input h with
  | Throw e h1 => Throw e h1
  | Ok r h1 =>
      match for_of post
              (runInstruction {| matcher := m; instructions := pre ++ post |})
              (matched r, output r) h1 with
      | Ok st h2 => Ok {| matched := fst st; output := snd st |} h2
      | Throw e h2 => Throw e h2
      end
  end.
Proof.
  unfold runProgram, bind. simpl. rewrite for_of_app.
  destruct (for_of pre _ _ h) as [[b v] h1|e h1]; simpl; [|done].
  done.
Qed.

(** C1: runProgram evaluates the matcher against the current target
    before every instruction, in order: a match sets [matched] and
    replaces the target by the result of the modifier, a mismatch skips
    the instruction and leaves the target as it is.  Consequently, once
    an instruction makes the value fail the matcher, every later
    instruction of the program is skipped, and the result still has
    [matched = true]. *)
Theorem runProgram_rematches_before_every_instruction
    (m : TypeDef) (pre post : list Instruction) (i : Instruction)
    (input : Value) (h : Heap) :
  runProgram {| matcher := m; instructions := [] |} input h
    = Ok {| matched := false; output := input |} h
  /\ runProgram {| matcher := m; instructions := pre ++ [i] |} input h =
     match runProgram {| matcher := m; instructions := pre |} input h with
     | Throw e h1 => Throw e h1
     | Ok r h1 =>
         if isOfType (output r) m h1 then
           match modifier i (output r) h1 with
           | Ok v h2 => Ok {| matched := true; output := v |} h2
           | Throw e h2 => Throw e h2
           end
         else Ok r h1
     end
  /\ (forall r h1 v h2,
        runProgram {| matcher := m; instructions := pre |} input h = Ok r h1 ->
        isOfType (output r) m h1 = true ->
        modifier i (output r) h1 = Ok v h2 ->
        isOfType v m h2 = false ->
        runProgram {| matcher := m; instructions := pre ++ i :: post |} input h
          = Ok {| matched := true; output := v |} h2).
Proof.
  split; [done|]. split; [apply runProgram_snoc|].
  intros r h1 v h2 Hpre Hm Hi Hm'.
  replace (pre ++ i :: post) with ((pre ++ [i]) ++ post)
    by (by rewrite <- app_assoc).
  rewrite runProgram_app, runProgram_snoc, Hpre, Hm, Hi. simpl.
  rewrite for_of_stuck; [done|].
  intros x. by apply runInstruction_skip.
Qed.

(** *** runPrograms *)

Lemma runPrograms_cons (program : Program) rest options input h :
  runPrograms (program :: rest) options input h =
  match runProgram program input h with
  | Throw e h1 => Throw e h1
  | Ok r h1 =>
      if matched r && stopAfterFirstMatch options then Ok (output r) h1
      else runPrograms rest options (output r) h1
  end.
Proof.
  unfold runPrograms. simpl. unfold bind at 1 2.
  destruct (runProgram program input h) as [r h1|e h1]; [|done].
  by destruct (matched r && stopAfterFirstMatch options).
Qed.

(** C2: runPrograms takes the programs in the order given and always
    adopts the output of a program as the new target, whether or not the
    program matched; when a program matched and [stopAfterFirstMatch] is
    set, the iteration stops there and the current value is returned: no
    later program is run. *)
Theorem runPrograms_in_order_with_short_circuit
    (program : Program) (rest : list Program) (options : Options)
    (input : Value) (h : Heap) :
  runPrograms [] options input h = Ok input h
  /\ runPrograms (program :: rest) options input h =
     match runProgram program input h with
     | Throw e h1 => Throw e h1
     | Ok r h1 =>
         if matched r && stopAfterFirstMatch options then Ok (output r) h1
         else runPrograms rest options (output r) h1
     end
  /\ (forall r h1,
        runProgram program input h = Ok r h1 ->
        matched r = true ->
        stopAfterFirstMatch options = true ->
        runPrograms (program :: rest) options input h = Ok (output r) h1)
  /\ (forall r h1,
        runProgram program input h = Ok r h1 ->
        matched r = false ->
        runPrograms (program :: rest) options input h
          = runPrograms rest options (output r) h1).
Proof.
  split; [done|]. split; [apply runPrograms_cons|].
  split; intros r h1 Hrun Hm; [intros Hstop|];
    rewrite runPrograms_cons, Hrun, Hm; simpl; [by rewrite Hstop|done].
Qed.

(** *** parseIntoPrograms *)

Lemma parseLoop_instruction_first (pre : list Token) i post programs :
  forallb isInstruction pre = true ->
  parseLoop (pre ++ TInstruction i :: post) (programs, None)
    = inl instructionBeforeMatcher.
Proof.
  induction pre as [|[d|j] pre IH]; simpl; try done.
Qed.

Lemma parseLoop_groups (items : list Token) gs g :
  exists gs',
    concat (map groupTokens gs') = concat (map groupTokens (gs ++ [g])) ++ items
    /\ exists st,
        parseLoop items (map groupProgram gs, Some (groupProgram g)) = inr st
        /\ seal st = map groupProgram gs'.
Proof.
  revert gs g. induction items as [|[d|i] items IH]; intros gs g.
  - exists (gs ++ [g]). split; [by rewrite app_nil_r|].
    eexists. split; [done|]. unfold seal. simpl. by rewrite map_app.
  - destruct (IH (gs ++ [g]) (d, [])) as (gs' & Htok & st & Hloop & Hseal).
    exists gs'. split.
    + rewrite Htok. rewrite !map_app, !concat_app. simpl.
      rewrite !app_nil_r. by rewrite <- !app_assoc.
    + exists st. split; [|done]. simpl. unfold seal at 1. simpl.
      rewrite <- Hloop. by rewrite map_app.
  - destruct (IH gs (fst g, snd g ++ [i])) as (gs' & Htok & st & Hloop & Hseal).
    exists gs'. split.
    + rewrite Htok. rewrite !map_app, !concat_app. simpl.
      rewrite !app_nil_r, map_app. simpl.
      rewrite <- !app_assoc. simpl. by rewrite <- app_assoc.
    + exists st. split; [|done]. simpl. by rewrite <- Hloop.
Qed.

(** C3: a token list in which an instruction comes before any matcher
    description does not parse: parseIntoPrograms throws, and so does
    makeBidoof when the transform is built, before there is a function to
    give an input to.  A token list that begins with a matcher description
    parses into the programs in source order, each with its matcher and
    the instructions that follow it, in order. *)
Theorem parseIntoPrograms_instruction_before_matcher
    (pre post : list Token) (i : Instruction) (d : Description)
    (rest : list Token) (options : Options) :
  (forallb isInstruction pre = true ->
     parseIntoPrograms (pre ++ TInstruction i :: post)
       = inl instructionBeforeMatcher
     /\ makeBidoof (pre ++ TInstruction i :: post) options
       = inl instructionBeforeMatcher)
  /\ (exists groups,
        TDescription d :: rest = concat (map groupTokens groups)
        /\ parseIntoPrograms (TDescription d :: rest)
            = inr (map groupProgram groups)
        /\ makeBidoof (TDescription d :: rest) options
            = inr (fun input =>
                     runPrograms (map groupProgram groups) options input)).
Proof.
  split.
  - intros Hpre. unfold makeBidoof, parseIntoPrograms.
    by rewrite parseLoop_instruction_first.
  - destruct (parseLoop_groups rest [] (d, []))
      as (groups & Htok & st & Hloop & Hseal).
    exists groups. split; [by rewrite Htok|].
    assert (parseIntoPrograms (TDescription d :: rest)
            = inr (map groupProgram groups)) as Hparse.
    { unfold parseIntoPrograms. simpl. unfold seal at 1. simpl.
      simpl in Hloop. unfold groupProgram in Hloop at 1. simpl in Hloop.
      unfold newProgram. rewrite Hloop. by rewrite Hseal. }
    split; [done|]. unfold makeBidoof. by rewrite Hparse.
Qed.

(** *** Programs that do not match *)

Lemma runProgram_no_match (program : Program) input h :
  isOfType input (matcher program) h = false ->
  runProgram program input h = Ok {| matched := false; output := input |} h.
Proof.
  intros Hm. unfold runProgram, bind.
  rewrite for_of_stuck; [done|].
  intros x. by apply runInstruction_skip.
Qed.

Lemma runPrograms_no_match (programs : list Program) options input h :
  Forall (fun p => isOfType input (matcher p) h = false) programs ->
  runPrograms programs options input h = Ok input h.
Proof.
  induction 1 as [|p ps Hp _ IH]; [done|].
  rewrite runPrograms_cons, runProgram_no_match by done. simpl. apply IH.
Qed.

(** C8: an input that satisfies the matcher of no program of the list
    passes through the compiled transform unchanged. *)
Theorem makeBidoof_identity_when_nothing_matches
    (programDescription : list Token) (options : Options)
    (programs : list Program) (run : Value -> M Value)
    (v : Value) (h : Heap) :
  parseIntoPrograms programDescription = inr programs ->
  makeBidoof programDescription options = inr run ->
  Forall (fun p => isOfType v (matcher p) h = false) programs ->
  run v h = Ok v h.
Proof.
  intros Hparse Hmake Hnone. unfold makeBidoof in Hmake.
  rewrite Hparse in Hmake. injection Hmake as <-.
  by apply runPrograms_no_match.
Qed.

(** *** replace *)

Lemma runProgram_replace (m : TypeDef) x v h :
  runProgram {| matcher := m; instructions := [replace x] |} v h =
  if isOfType v m h then Ok {| matched := true; output := x |} h
  else Ok {| matched := false; output := v |} h.
Proof.
  unfold runProgram, bind. simpl. unfold bind, runInstruction, bind, matches.
  simpl. by destruct (isOfType v m h).
Qed.

(** C9: replace is idempotent: when [v] and [x] both satisfy the matcher
    described by [Md], running [Md, replace(x), Md, replace(x)] on [v]
    gives what running [Md, replace(x)] on [v] gives. *)
Theorem replace_twice_is_replace_once
    (Md : Description) (x v : Value) (options : Options) (h : Heap)
    (run1 run2 : Value -> M Value) :
  isOfType v (coerceToType Md) h = true ->
  isOfType x (coerceToType Md) h = true ->
  makeBidoof [TDescription Md; TInstruction (replace x)] options = inr run1 ->
  makeBidoof [TDescription Md; TInstruction (replace x);
              TDescription Md; TInstruction (replace x)] options = inr run2 ->
  run2 v h = run1 v h /\ run1 v h = Ok x h.
Proof.
  intros Hv Hx Hrun1 Hrun2.
  injection Hrun1 as <-. injection Hrun2 as <-.
  unfold seal, newProgram, pushInstruction. simpl.
  rewrite !runPrograms_cons, !runProgram_replace. rewrite Hv. simpl.
  destruct (stopAfterFirstMatch options); simpl; [done|].
  rewrite runPrograms_cons, runProgram_replace, Hx. simpl.
  by destruct (stopAfterFirstMatch options).
Qed.

(** *** Programs without instructions *)

(** C10: a program with no instruction returns [matched = false] and its
    input, whether or not its matcher matches the input; hence a matcher
    description followed by no instruction never triggers the
    [stopAfterFirstMatch] short circuit of runPrograms. *)
Theorem runProgram_without_instructions
    (m : TypeDef) (d : Description) (input : Value) (h : Heap)
    (rest : list Program) (options : Options) :
  runProgram {| matcher := m; instructions := [] |} input h
    = Ok {| matched := false; output := input |} h
  /\ runPrograms ({| matcher := m; instructions := [] |} :: rest) options
       input h
     = runPrograms rest options input h
  /\ parseIntoPrograms [TDescription d]
     = inr [{| matcher := coerceToType d; instructions := [] |}].
Proof.
  split; [done|]. split; [|done].
  by rewrite runPrograms_cons.
Qed.

End EngineProperties.

(** ** A program logic for the store *)

Lemma hoare_ret {A} (P : Heap -> Prop) (a : A) (Q : A -> Heap -> Prop) E :
  (forall h, P h -> Q a h) -> hoare P (ret a) Q E.
Proof. intros HQ h HP. by apply HQ. Qed.

Lemma hoare_bind {A B} (P : Heap -> Prop) (m : M A) (k : A -> M B)
    (Q : A -> Heap -> Prop) (T : B -> Heap -> Prop) E :
  hoare P m Q E -> (forall a, hoare (Q a) (k a) T E) ->
  hoare P (bind m k) T E.
Proof.
  intros Hm Hk h HP. unfold bind. specialize (Hm h HP).
  destruct (m h) as [a h'|e h']; [by apply Hk | done].
Qed.

Lemma hoare_weaken {A} (P P' : Heap -> Prop) (m : M A)
    (Q Q' : A -> Heap -> Prop) (E E' : Heap -> Prop) :
  hoare P' m Q' E' ->
  (forall h, P h -> P' h) -> (forall a h, Q' a h -> Q a h) ->
  (forall h, E' h -> E h) ->
  hoare P m Q E.
Proof.
  intros Hm HP HQ HE h Hh. specialize (Hm h (HP h Hh)).
  destruct (m h); auto.
Qed.

Lemma hoare_for_of {A S} (I E : Heap -> Prop) (xs : list A)
    (body : S -> A -> M S) (s : S) :
  (forall s x, hoare I (body s x) (fun _ => I) E) ->
  hoare I (for_of xs body s) (fun _ => I) E.
Proof.
  intros Hbody. revert s. induction xs as [|x xs IH]; intros s; simpl.
  - by apply hoare_ret.
  - eapply hoare_bind; [apply Hbody|]. intros s'. apply IH.
Qed.

Lemma assocGet_values name props v :
  assocGet name props = Some v -> v ∈ map snd props.
Proof.
  induction props as [|[name' v'] props IH]; simpl; [done|].
  destruct (String.eqb name name').
  - intros [= ->]. apply list_elem_of_here.
  - intros H. apply list_elem_of_further. by apply IH.
Qed.

Lemma assocSet_values name v props v' :
  v' ∈ map snd (assocSet name v props) -> v' ∈ map snd props \/ v' = v.
Proof.
  induction props as [|[name' w] props IH]; simpl.
  - intros H. apply list_elem_of_singleton in H. by right.
  - destruct (String.eqb name name'); simpl; intros H;
      apply elem_of_cons in H as [->|H].
    + by right.
    + left. by apply list_elem_of_further.
    + left. apply list_elem_of_here.
    + destruct (IH H) as [H'| ->]; [left|by right].
      by apply list_elem_of_further.
Qed.

Lemma arraySet_values i v elems v' :
  v' ∈ arraySet i v elems -> v' ∈ elems \/ v' = v \/ v' = VUndefined.
Proof.
  unfold arraySet. destruct (decide (i < length elems)).
  - intros H. apply list_elem_of_lookup in H as [j Hj].
    apply list_lookup_insert_Some in Hj as [(_ & -> & _)|[_ Hj]]; [auto|].
    left. apply list_elem_of_lookup. eauto.
  - rewrite !elem_of_app. intros [H|[H|H]]; [auto| |].
    + apply elem_of_replicate in H as [-> _]. auto.
    + apply list_elem_of_singleton in H. auto.
Qed.

Lemma resize_values n elems v' :
  v' ∈ resize n elems -> v' ∈ elems \/ v' = VUndefined.
Proof.
  unfold resize. rewrite elem_of_app. intros [H|H].
  - left. apply list_elem_of_lookup in H as [j Hj].
    apply lookup_take_Some in Hj as [Hj _]. apply list_elem_of_lookup. eauto.
  - apply elem_of_replicate in H as [-> _]. auto.
Qed.

(** What is read from a cell is a value of the cell, or no reference. *)
Lemma getProp_values o k :
  getProp o k ∈ objValues o \/ forall l, getProp o k <> VRef l.
Proof.
  destruct o as [props|elems]; simpl.
  - destruct (assocGet (keyName k) props) as [v|] eqn:H; simpl; [|by right].
    left. by eapply assocGet_values.
  - destruct (keyIndex k) as [i|].
    + destruct (elems !! i) as [v|] eqn:H; simpl; [|by right].
      left. apply list_elem_of_lookup. eauto.
    + right. by destruct (isLengthKey k).
Qed.

Lemma setProp_values k v o o' v' :
  setProp k v o = inr o' ->
  v' ∈ objValues o' ->
  v' ∈ objValues o \/ v' = v \/ v' = VUndefined.
Proof.
  destruct o as [props|elems]; simpl.
  - intros [= <-] H. destruct (assocSet_values _ _ _ _ H); auto.
  - destruct (keyIndex k).
    + destruct (Z.of_nat n <? maxArrayLength)%Z; [|done].
      intros [= <-]. apply arraySet_values.
    + destruct (isLengthKey k); [|done].
      destruct (lengthOfValue v) as [e|n]; [done|].
      destruct ((0 <=? n) && (n <=? maxArrayLength))%Z; [|done].
      intros [= <-] H. simpl in H.
      destruct (resize_values _ _ _ H); auto.
Qed.

(** ** Regions *)

Section Region.

Variable R : loc -> Prop.
Variable h0 : Heap.
Hypothesis fresh_in_region : forall l, length h0 <= l -> R l.

Local Abbreviation Inv := (regionInv R h0).
Local Abbreviation Fr := (frames R h0).

Lemma regionInv_frames h : Inv h -> Fr h.
Proof. by intros [? ?]. Qed.

Lemma frames_alter (f : Obj -> Obj) l h : R l -> Fr h -> Fr (alter f l h).
Proof.
  intros Hl [Hlen Hfr]. split; [by rewrite length_alter|].
  intros l1 o Hl1 Ho. rewrite list_lookup_alter_ne by congruence. by apply Hfr.
Qed.

Lemma frames_insert o l h : R l -> Fr h -> Fr (<[l:=o]> h).
Proof.
  intros Hl [Hlen Hfr]. split; [by rewrite length_insert|].
  intros l1 o1 Hl1 Ho. rewrite list_lookup_insert_ne by congruence.
  by apply Hfr.
Qed.

Lemma frames_alloc o h : Fr h -> Fr (h ++ [o]).
Proof.
  intros [Hlen Hfr]. split; [rewrite length_app; lia|].
  intros l1 o1 Hl1 Ho. apply lookup_app_l_Some. by apply Hfr.
Qed.

Lemma hoare_readProp v k :
  within R v ->
  hoare Inv (readProp v k) (fun r h => Inv h /\ within R r) Inv.
Proof.
  intros Hv h HI. unfold readProp.
  destruct v as [| | | | s|l]; try done.
  { split; [done|]. unfold stringProp.
    destruct (keyIndex k); [by destruct (String.get n s)|].
    by destruct (isLengthKey k). }
  destruct (h !! l) as [o|] eqn:Ho; [|done].
  split; [done|]. destruct (getProp_values o k) as [Hin | Hno].
  - destruct HI as [_ Hcl]. by eapply Hcl.
  - destruct (getProp o k); try done. by destruct (Hno l0).
Qed.

Lemma hoare_alloc_empty o :
  objValues o = [] ->
  hoare Inv (alloc o) (fun r h => Inv h /\ within R r) Inv.
Proof.
  intros Ho h [Hfr Hcl]. unfold alloc. split; [split|].
  - by apply frames_alloc.
  - intros l o1 v Hl Hlook Hin.
    apply lookup_app_Some in Hlook as [Hlook|[_ Hlook]].
    + by eapply Hcl.
    + apply list_lookup_singleton_Some in Hlook as [_ <-].
      rewrite Ho in Hin. by apply elem_of_nil in Hin.
  - simpl. apply fresh_in_region. by destruct Hfr.
Qed.

Lemma hoare_writeProp l k v :
  R l -> within R v ->
  hoare Inv (writeProp l k v) (fun _ => Inv) Inv.
Proof.
  intros Hl Hv h [Hfr Hcl]. unfold writeProp.
  destruct (h !! l) as [o|] eqn:Ho; [|done].
  destruct (setProp k v o) as [e|o'] eqn:Hset; [done|]. split.
  - by apply frames_insert.
  - intros l1 o1 v1 Hl1 Hlook Hin.
    destruct (decide (l1 = l)) as [->|Hne].
    + rewrite list_lookup_insert_eq in Hlook by (by eapply lookup_lt_Some).
      injection Hlook as <-.
      destruct (setProp_values _ _ _ _ _ Hset Hin) as [H|[->| ->]];
        [|done|done].
      by eapply Hcl.
    + rewrite list_lookup_insert_ne in Hlook by done. by eapply Hcl.
Qed.

Lemma hoare_writeProp_frames l k v :
  R l -> hoare Inv (writeProp l k v) (fun _ => Fr) Fr.
Proof.
  intros Hl h [Hfr Hcl]. unfold writeProp.
  destruct (h !! l) as [o|]; [|done].
  destruct (setProp k v o); [done|]. by apply frames_insert.
Qed.

Lemma hoare_mergeTarget objValue srcLoc :
  within R objValue ->
  hoare Inv (mergeTarget objValue srcLoc) (fun r h => Inv h /\ within R r) Inv.
Proof.
  intros Hv h HI. unfold mergeTarget.
  destruct objValue as [| | | | |l];
    try (destruct (isArrayObj (h !! srcLoc)); by apply hoare_alloc_empty).
  destruct (isArrayObj (h !! srcLoc) && negb (isArrayObj (h !! l))).
  - by apply hoare_alloc_empty.
  - done.
Qed.

Lemma hoare_readProp_any v k :
  hoare Inv (readProp v k) (fun _ => Inv) Inv.
Proof.
  intros h HI. unfold readProp.
  destruct v as [| | | | |l]; try done. by destruct (h !! l).
Qed.

Lemma hoare_baseMerge fuel object source :
  R object -> hoare Inv (baseMerge fuel object source) (fun _ => Inv) Inv.
Proof.
  revert object source. induction fuel as [|fuel IH]; intros object source Ho.
  - by apply hoare_ret.
  - intros h HI. simpl. destruct (h !! source) as [src|]; [|done].
    revert h HI. apply hoare_for_of. intros [] key.
    eapply hoare_bind; [apply hoare_readProp_any|].
    intros srcValue.
    destruct srcValue as [| | | | |srcLoc];
      try (by apply hoare_ret); try (by apply hoare_writeProp).
    eapply hoare_bind; [by apply (hoare_readProp (VRef object))|].
    intros objValue. simpl.
    eapply hoare_bind with (Q := fun r h => Inv h /\ within R r).
    { intros h [HI Hw]. by apply hoare_mergeTarget. }
    intros newValue.
    eapply hoare_bind with (Q := fun _ h => Inv h /\ within R newValue).
    { intros h [HI Hw].
      pose proof (hoare_writeProp object key newValue Ho Hw h HI) as H.
      by destruct (writeProp object key newValue h). }
    intros _. destruct newValue as [| | | | |l];
      try (apply hoare_ret; by intros ? [? ?]).
    intros h [HI Hw]. by apply IH.
Qed.

Lemma hoare_baseSet keys nested value :
  R nested -> hoare Inv (baseSet nested keys value) (fun _ => Fr) Fr.
Proof.
  revert nested. induction keys as [|key keys IH]; intros nested Hn.
  - apply hoare_ret. apply regionInv_frames.
  - destruct keys as [|next rest].
    + by apply hoare_writeProp_frames.
    + change (baseSet nested (key :: next :: rest) value) with
        (let* objValue := readProp (VRef nested) key in
         let* newValue :=
           match objValue with
           | VRef _ => ret objValue
           | _ => alloc (if isIndex next then OArray [] else OObject [])
           end in
         let* _ := writeProp nested key newValue in
         let* child := readProp (VRef nested) key in
         match child with
         | VRef l => baseSet l (next :: rest) value
         | _ => ret tt
         end).
      eapply hoare_weaken with (P' := Inv) (Q' := fun _ => Fr) (E' := Fr);
        [|done|done|done].
      assert (forall h, Inv h -> Fr h) as HIF by apply regionInv_frames.
      assert (forall o, objValues o = [] ->
              hoare Inv (alloc o) (fun r h => Inv h /\ within R r) Fr) as Halloc.
      { intros o Hoe. eapply hoare_weaken; [by apply hoare_alloc_empty|..]; auto. }
      eapply hoare_bind with (Q := fun r h => Inv h /\ within R r).
      { eapply hoare_weaken; [by apply (hoare_readProp (VRef nested))|..]; auto. }
      intros objValue.
      eapply hoare_bind with (Q := fun r h => Inv h /\ within R r).
      { intros h [HI Hw].
        destruct objValue; try (apply Halloc; [by destruct (isIndex next)|done]).
        done. }
      intros newValue.
      eapply hoare_bind with (Q := fun _ h => Inv h).
      { intros h [HI Hw].
        pose proof (hoare_writeProp nested key newValue Hn Hw h HI) as H.
        destruct (writeProp nested key newValue h); [done|by apply HIF]. }
      intros _.
      eapply hoare_bind with (Q := fun r h => Inv h /\ within R r).
      { eapply hoare_weaken; [by apply (hoare_readProp (VRef nested))|..]; auto. }
      intros child. destruct child as [| | | | |l];
        try (apply hoare_ret; intros ? [? ?]; by apply HIF).
      intros h [HI Hw]. by apply IH.
Qed.

End Region.

(** ** Reachability and confinement *)

Lemma reach_snoc h a b c o :
  reach h a b -> h !! b = Some o -> VRef c ∈ objValues o -> reach h a c.
Proof.
  induction 1 as [l|l o' l' l'' Hl Hin _ IH]; intros Hb Hc.
  - eapply reach_step; [done..|apply reach_here].
  - eapply reach_step; [done..|by apply IH].
Qed.

Lemma reachable_region h v :
  regionInv (fun x => reachable h v x \/ length h <= x) h h.
Proof.
  split; [by split|].
  intros l o w [(l0 & -> & Hreach)|Hge] Hl Hin.
  - destruct w as [| | | | |c]; try done. left. exists l0. split; [done|].
    by eapply reach_snoc.
  - apply lookup_lt_Some in Hl. lia.
Qed.

Lemma region_confined {A} (f : Value -> M A) :
  (forall R h0 v, (forall l, length h0 <= l -> R l) -> within R v ->
     hoare (regionInv R h0) (f v) (fun _ => frames R h0) (frames R h0)) ->
  confined f.
Proof.
  intros Hf v h l o Hl Hnot.
  pose (R := fun x => reachable h v x \/ length h <= x).
  assert (within R v) as Hv.
  { destruct v as [| | | | |l0]; try done. left. exists l0.
    split; [done|apply reach_here]. }
  specialize (Hf R h v (fun l Hge => or_intror Hge) Hv h (reachable_region h v)).
  assert (frames R h (heap_of (f v h))) as [_ Hfr] by (by destruct (f v h)).
  apply Hfr; [|done]. intros [Hr|Hge]; [done|].
  apply lookup_lt_Some in Hl. lia.
Qed.

Lemma heap_of_bind_ret {A B} (m : M A) (b : B) h :
  heap_of ((let* _ := m in ret b) h) = heap_of (m h).
Proof. unfold bind. by destruct (m h). Qed.

Lemma confined_then_ret {A} (f : Value -> M A) :
  confined f -> confined (fun input => let* _ := f input in ret input).
Proof.
  intros Hf v h l o Hl Hnot. rewrite heap_of_bind_ret. by apply Hf.
Qed.

Lemma confined_lodashSet path value :
  confined (fun input => lodashSet input path value).
Proof.
  apply region_confined. intros R h0 v Hfresh Hv. unfold lodashSet.
  destruct v as [| | | | |l];
    try (apply hoare_ret; by apply regionInv_frames).
  by apply hoare_baseSet.
Qed.

Lemma confined_lodashMerge other :
  confined (fun input => lodashMerge input other).
Proof.
  apply region_confined. intros R h0 v Hfresh Hv. unfold lodashMerge.
  destruct v as [| | | | |l];
    try (apply hoare_ret; by apply regionInv_frames).
  destruct other as [| | | | |s];
    try (apply hoare_ret; by apply regionInv_frames).
  intros h HI.
  pose proof (hoare_baseMerge R h0 Hfresh (S (length h)) l s Hv h HI) as H.
  destruct (baseMerge (S (length h)) l s h); by apply regionInv_frames.
Qed.

Lemma confined_arrayPush items :
  confined (fun input => arrayPush input items).
Proof.
  apply region_confined. intros R h0 v Hfresh Hv h [Hfr _]. unfold arrayPush.
  destruct v as [| | | | |l]; try done.
  destruct (h !! l) as [[props|elems]|]; try done.
  by apply frames_insert.
Qed.

Lemma confined_deleteOp propertyName :
  confined (fun input => deleteOp input propertyName).
Proof.
  apply region_confined. intros R h0 v Hfresh Hv h [Hfr _]. unfold deleteOp.
  destruct v as [| | | |s|l]; try done.
  - by destruct (stringHasOwn s propertyName).
  - destruct (isArrayObj (h !! l) && String.eqb propertyName "length");
      [done|by apply frames_alter].
Qed.

Lemma confined_mutating k :
  callbackConfined k -> confined (modifier (mutating k)).
Proof.
  destruct k as [path value|other|callback|items|propertyName]; simpl;
    intros Hk; apply confined_then_ret.
  - apply confined_lodashSet.
  - apply confined_lodashMerge.
  - exact Hk.
  - apply confined_arrayPush.
  - apply confined_deleteOp.
Qed.

(** ** Drafts *)

Lemma objValues_shiftObj n o :
  objValues (shiftObj n o) = map (shiftValue n) (objValues o).
Proof.
  destruct o as [props|elems]; simpl; [|done].
  induction props as [|p props IH]; simpl; [done|]. by rewrite IH.
Qed.

Lemma lookup_copy (h : Heap) l :
  (h ++ map (shiftObj (length h)) h) !! (length h + l)
  = shiftObj (length h) <$> h !! l.
Proof.
  rewrite lookup_app_r by lia.
  replace (length h + l - length h) with l by lia.
  apply list_lookup_fmap.
Qed.

Lemma reach_in_copy (h : Heap) a b :
  reach (h ++ map (shiftObj (length h)) h) a b ->
  length h <= a -> length h <= b.
Proof.
  induction 1 as [l|l o l' l'' Hl Hin _ IH]; intros Hge; [done|].
  apply IH. replace l with (length h + (l - length h)) in Hl by lia.
  rewrite lookup_copy in Hl.
  destruct (h !! (l - length h)) as [o'|]; simplify_eq/=.
  rewrite objValues_shiftObj in Hin.
  apply list_elem_of_In, in_map_iff in Hin as (w & Hw & _).
  destruct w; simplify_eq/=. lia.
Qed.

Lemma heap_of_finishDraft d h : heap_of (finishDraft d h) = h.
Proof. unfold finishDraft. by destruct (decide _). Qed.

Lemma heap_of_immerProduce base recipe h :
  heap_of (immerProduce base recipe h) =
  match createDraft base h with
  | Ok d h1 => heap_of (recipe (draftProxy d) h1)
  | Throw _ h1 => h1
  end.
Proof.
  unfold immerProduce, bind. destruct (createDraft base h) as [d h1|e h1]; [|done].
  destruct (recipe (draftProxy d) h1) as [[] h2|e h2]; [|done].
  apply heap_of_finishDraft.
Qed.

Lemma withoutMutating_preserves i input h :
  confined (modifier i) ->
  preserves h (heap_of (modifier (withoutMutating i) input h)).
Proof.
  intros Hi l o Hl. simpl. rewrite heap_of_immerProduce. unfold createDraft.
  destruct input as [| | | | |l0]; rewrite heap_of_bind_ret;
    try (apply Hi; [done|]; by intros (? & ? & ?)).
  apply Hi; [by apply lookup_app_l_Some|].
  intros (? & [= <-] & Hreach). apply reach_in_copy in Hreach; [|lia].
  apply lookup_lt_Some in Hl. lia.
Qed.

(** ** Contents *)

Lemma snapshot_preserved depth h h' v :
  closedHeap h -> validValue h v -> preserves h h' ->
  snapshot depth h' v = snapshot depth h v.
Proof.
  intros Hcl Hv Hpre. revert v Hv.
  induction depth as [|depth IH]; intros v Hv; destruct v as [| | | | |l]; try done.
  simpl in *. apply lookup_lt_is_Some_2 in Hv as [o Ho].
  rewrite Ho, (Hpre _ _ Ho).
  assert (Forall (validValue h) (objValues o)) as Hvals.
  { unfold closedHeap in Hcl. rewrite List.Forall_forall in Hcl. apply Hcl.
    apply list_elem_of_In. apply list_elem_of_lookup. eauto. }
  rewrite List.Forall_forall in Hvals.
  destruct o as [props|elems]; simpl in *; f_equal.
  - apply map_ext_in. intros [name w] Hin. simpl. f_equal. apply IH.
    apply Hvals. apply in_map_iff. by exists (name, w).
  - apply map_ext_in. intros w Hin. apply IH. by apply Hvals.
Qed.

(** ** What the mutating forms return *)

Lemma then_ret_output {A} (m : M A) (v out : Value) h h' :
  (let* _ := m in ret v) h = Ok out h' -> out = v.
Proof.
  unfold bind. destruct (m h); [|done]. by intros [= <- _].
Qed.

Lemma mutating_output k v h out h' :
  modifier (mutating k) v h = Ok out h' -> out = v.
Proof. destruct k; apply then_ret_output. Qed.

Lemma nonMutating_withoutMutating k :
  nonMutating k = withoutMutating (mutating k).
Proof. by destruct k. Qed.

(** C5: on every input, a non-mutating set, merge, modify, append or
    deleteProperty leaves every cell of the store as it was, so that the
    argument is deeply unchanged, and when the contents of the result
    differ from those of the input the result is not the input reference;
    whatever the mutating variant returns is the very value it was given
    (it may throw instead: append on a value that is no array, set on a
    path that cannot be written, deleteProperty on a property that cannot
    be deleted).  The callback of modify is taken to write only what it
    reaches from its argument. *)
Theorem nonMutating_leaves_input_unchanged (k : Kind) (v : Value) (h : Heap) :
  closedHeap h -> validValue h v ->
  (callbackConfined k ->
     preserves h (heap_of (modifier (nonMutating k) v h))
     /\ (forall depth,
           snapshot depth (heap_of (modifier (nonMutating k) v h)) v
           = snapshot depth h v)
     /\ (forall out h',
           modifier (nonMutating k) v h = Ok out h' ->
           changed h v h' out -> out <> v))
  /\ (forall out h', modifier (mutating k) v h = Ok out h' -> out = v).
Proof.
  intros Hcl Hv. split; [|apply mutating_output].
  intros Hk.
  assert (preserves h (heap_of (modifier (nonMutating k) v h))) as Hpre.
  { rewrite nonMutating_withoutMutating.
    by apply withoutMutating_preserves, confined_mutating. }
  split; [done|]. split.
  - intros depth. by apply snapshot_preserved.
  - intros out h' Hrun [depth Hneq] ->. apply Hneq.
    rewrite Hrun in Hpre. by apply snapshot_preserved.
Qed.

Lemma setB6_confined : confined setB6.
Proof.
  intros v h l o Hl Hnot. unfold setB6. rewrite heap_of_bind_ret.
  by apply (confined_lodashSet (PKeys [KStr "a"; KStr "b"]) (VNum 6)).
Qed.

Lemma nonMutating_leaves_input_unchanged_witness :
  closedHeap storeAB5 /\ validValue storeAB5 (VRef 0)
  /\ callbackConfined (KModify setB6)
  /\ (preserves storeAB5
        (heap_of (modifier (nonMutating (KModify setB6)) (VRef 0) storeAB5))
      /\ (forall depth,
            snapshot depth
              (heap_of (modifier (nonMutating (KModify setB6)) (VRef 0)
                          storeAB5)) (VRef 0)
            = snapshot depth storeAB5 (VRef 0))
      /\ (forall out h',
            modifier (nonMutating (KModify setB6)) (VRef 0) storeAB5
              = Ok out h' ->
            changed storeAB5 (VRef 0) h' out -> out <> VRef 0))
  /\ (forall out h',
        modifier (mutating (KModify setB6)) (VRef 0) storeAB5 = Ok out h' ->
        out = VRef 0)
  /\ (exists h',
        modifier (mutating (KModify setB6)) (VRef 0) storeAB5
        = Ok (VRef 0) h').
Proof.
  assert (closedHeap storeAB5) as Hcl.
  { unfold closedHeap, storeAB5. repeat constructor. }
  assert (validValue storeAB5 (VRef 0)) as Hv by (simpl; lia).
  assert (callbackConfined (KModify setB6)) as Hk by apply setB6_confined.
  assert (exists h',
            modifier (mutating (KModify setB6)) (VRef 0) storeAB5
            = Ok (VRef 0) h') as Hret.
  { eexists. vm_compute. reflexivity. }
  destruct (nonMutating_leaves_input_unchanged (KModify setB6) (VRef 0)
              storeAB5 Hcl Hv) as (Hnm & Hout).
  exact (conj Hcl (conj Hv (conj Hk (conj (Hnm Hk) (conj Hout Hret))))).
Defined.

(** ** withoutMutating *)

Lemma withoutMutating_contract instruction input h :
  modifier (withoutMutating instruction) input h
  = draftRunFinalize instruction input h.
Proof.
  simpl. unfold immerProduce, draftRunFinalize, bind.
  destruct (createDraft input h) as [d h1|e h1]; [|done].
  by destruct (modifier instruction (draftProxy d) h1).
Qed.

(** C4, amended: the non-mutating variants of merge, set, modify,
    append, deleteProperty and at are withoutMutating applied to the
    mutating variant, that is: produce a draft of the input, run the
    wrapped modifier on the draft, finalize and return the result.  The
    non-mutating prepend is not derived in this way: it is implemented on
    its own, as [items.concat(input)], which allocates a new array. *)
Theorem nonMutating_variants_from_withoutMutating
    (other : Value) (path : Path) (value : Value)
    (callback : Value -> M Value) (items : list Value)
    (propertyName : string) (instruction : Instruction)
    (input : Value) (h : Heap) :
  modifier (mergeNoMutate other) input h
    = draftRunFinalize (mergeMutate other) input h
  /\ modifier (setNoMutate path value) input h
    = draftRunFinalize (setMutate path value) input h
  /\ modifier (modifyNoMutate callback) input h
    = draftRunFinalize (modifyMutate callback) input h
  /\ modifier (appendNoMutate items) input h
    = draftRunFinalize (appendMutate items) input h
  /\ modifier (deletePropertyNoMutate propertyName) input h
    = draftRunFinalize (deletePropertyMutate propertyName) input h
  /\ modifier (atNoMutate path instruction) input h
    = draftRunFinalize (atMutate path instruction) input h
  /\ modifier (prependNoMutate items) input h
    = Ok (VRef (length h)) (h ++ [OArray (items ++ concatSpread h input)]).
Proof.
  repeat (split; [apply withoutMutating_contract|]). reflexivity.
Qed.

(** C4 as stated fails for prepend: on the number 5 the non-mutating
    prepend returns a new array, and withoutMutating of the mutating
    prepend throws. *)
Lemma prependNoMutate_is_not_withoutMutating :
  modifier (prependNoMutate [VNum 1]) (VNum 5) []
  <> modifier (withoutMutating (prependMutate [VNum 1])) (VNum 5) [].
Proof. vm_compute. discriminate. Qed.

(** ** append and prepend on targets that are not arrays *)

Lemma arrayPush_not_array items v h :
  isArrayValue h v = false -> arrayPush v items h = Throw TypeError h.
Proof.
  unfold arrayPush. destruct v as [| | | | |l]; try done. simpl.
  by destruct (h !! l) as [[props|elems]|].
Qed.

Lemma arrayUnshift_not_array items v h :
  isArrayValue h v = false -> arrayUnshift v items h = Throw TypeError h.
Proof.
  unfold arrayUnshift. destruct v as [| | | | |l]; try done. simpl.
  by destruct (h !! l) as [[props|elems]|].
Qed.

Lemma draft_not_array v h d h1 :
  isArrayValue h v = false -> createDraft v h = Ok d h1 ->
  isArrayValue h1 (draftProxy d) = false.
Proof.
  unfold createDraft. destruct v as [| | | | |l]; intros Hv [= <- <-]; try done.
  simpl in *. rewrite lookup_copy.
  by destruct (h !! l) as [[props|elems]|].
Qed.

Lemma appendNoMutate_not_array items v h :
  isArrayValue h v = false ->
  exists h', modifier (appendNoMutate items) v h = Throw TypeError h'.
Proof.
  intros Hv. simpl. unfold immerProduce, bind.
  destruct (createDraft v h) as [d h1|e h1] eqn:Hd.
  - rewrite (arrayPush_not_array _ _ _ (draft_not_array _ _ _ _ Hv Hd)). eauto.
  - unfold createDraft in Hd. by destruct v.
Qed.

Section ErrorPropagation.

Context {Description TypeDef : Type}.
Variable coerceToType : Description -> TypeDef.
Variable isOfType : Value -> TypeDef -> Heap -> bool.

Lemma run_single_instruction_throws (d : Description) i options run v h e h' :
  isOfType v (coerceToType d) h = true ->
  modifier i v h = Throw e h' ->
  makeBidoof coerceToType isOfType [TDescription d; TInstruction i] options
    = inr run ->
  run v h = Throw e h'.
Proof.
  intros Hm Hi [= <-]. unfold runPrograms, seal. simpl.
  unfold bind, runProgram, bind. simpl.
  unfold bind, runInstruction, bind, matches. simpl. by rewrite Hm, Hi.
Qed.

(** C6, amended: on a target that is not an array, append in both forms
    and the mutating prepend throw a TypeError, and the error reaches the
    caller of the compiled transform; the non-mutating prepend does not
    throw: it returns a new array of the items followed by the target. *)
Theorem append_prepend_on_non_array
    (items : list Value) (v : Value) (h : Heap) (d : Description)
    (options : Options) :
  isArrayValue h v = false ->
  (forall i,
     In i [appendMutate items; appendNoMutate items; prependMutate items] ->
     (exists h', modifier i v h = Throw TypeError h')
     /\ (forall run,
           isOfType v (coerceToType d) h = true ->
           makeBidoof coerceToType isOfType
             [TDescription d; TInstruction i] options = inr run ->
           exists h', run v h = Throw TypeError h'))
  /\ modifier (prependNoMutate items) v h
     = Ok (VRef (length h)) (h ++ [OArray (items ++ [v])]).
Proof.
  intros Hv. split.
  - intros i Hi.
    assert (exists h', modifier i v h = Throw TypeError h') as [h' Hthrow].
    { destruct Hi as [<-|[<-|[<-|[]]]].
      - exists h. simpl. unfold bind. by rewrite arrayPush_not_array.
      - by apply appendNoMutate_not_array.
      - exists h. simpl. unfold bind. by rewrite arrayUnshift_not_array. }
    split; [by exists h'|]. intros run Hm Hmake. exists h'.
    by eapply run_single_instruction_throws.
  - simpl. unfold arrayConcat, alloc, concatSpread.
    destruct v as [| | | | |l]; try done. simpl in Hv.
    by destruct (h !! l) as [[props|elems]|].
Qed.

End ErrorPropagation.

Lemma append_prepend_on_non_array_witness :
  isArrayValue [] (VNum 5) = false
  /\ (exists h', modifier (appendNoMutate [VNum 1]) (VNum 5) []
                 = Throw TypeError h')
  /\ (forall run,
        shapeIsOfType (VNum 5) (shapeCoerce SNumber) [] = true ->
        makeBidoof shapeCoerce shapeIsOfType
          [TDescription SNumber; TInstruction (appendNoMutate [VNum 1])]
          defaultOptions = inr run ->
        exists h', run (VNum 5) [] = Throw TypeError h')
  /\ modifier (prependNoMutate [VNum 1]) (VNum 5) []
     = Ok (VRef 0) [OArray [VNum 1; VNum 5]].
Proof.
  assert (isArrayValue [] (VNum 5) = false) as Hv by reflexivity.
  destruct (append_prepend_on_non_array shapeCoerce shapeIsOfType
              [VNum 1] (VNum 5) [] SNumber defaultOptions Hv) as [Hthrow Hok].
  destruct (Hthrow (appendNoMutate [VNum 1])) as [H1 H2].
  { simpl. auto. }
  exact (conj Hv (conj H1 (conj H2 Hok))).
Defined.

(** C6 as stated fails for the non-mutating prepend: on the number 5 it
    returns [[1, 5]]. *)
Lemma prependNoMutate_does_not_throw :
  isArrayValue [] (VNum 5) = false
  /\ ~ (exists h', modifier (prependNoMutate [VNum 1]) (VNum 5) []
                   = Throw TypeError h').
Proof. split; [reflexivity|]. intros [h' H]. vm_compute in H. discriminate. Qed.

(** C7, amended: [at("a.b", modify(x => x + 1))] applied to
    [{a: {b: 5}}] yields [{a: {b: 5}}], and it is the input itself:
    modify drops what its callback returns, and a number cannot be changed
    in place.  With [transform(x => x + 1)] as the inner instruction the
    result is [{a: {b: 6}}] and the input still holds 5.  In both cases
    at reads the child at the path, applies the modifier of the inner
    instruction to it and writes the result back at the path. *)
Theorem at_modify_plusOne :
  (exists h',
     modifier (atNoMutate (PString "a.b") (modifyNoMutate plusOne)) (VRef 0)
       storeAB5 = Ok (VRef 0) h'
     /\ snapshot 2 h' (VRef 0) = treeAB 5)
  /\ (exists out h',
        modifier (atNoMutate (PString "a.b") (transform plusOne)) (VRef 0)
          storeAB5 = Ok out h'
        /\ snapshot 2 h' out = treeAB 6
        /\ snapshot 2 h' (VRef 0) = treeAB 5)
  /\ (forall path instruction input,
        modifier (atMutate path instruction) input
        = (let* child := lodashGet input path in
           let* newChild := modifier instruction child in
           let* _ := lodashSet input path newChild in
           ret input)).
Proof.
  split; [|split].
  - eexists. split; [vm_compute; reflexivity|]. reflexivity.
  - eexists _, _. split; [vm_compute; reflexivity|]. split; reflexivity.
  - reflexivity.
Qed.

(** C7 as stated fails: the result is not [{a: {b: 6}}]. *)
Lemma at_modify_plusOne_does_not_yield_6 :
  snapshot 2 storeAB5 (VRef 0) = treeAB 5
  /\ exists out h',
      modifier (atNoMutate (PString "a.b") (modifyNoMutate plusOne)) (VRef 0)
        storeAB5 = Ok out h'
      /\ snapshot 2 h' out <> treeAB 6.
Proof.
  split; [reflexivity|]. eexists _, _. split; [vm_compute; reflexivity|].
  vm_compute. discriminate.
Qed.

(** ** The engine on examples *)

Lemma runProgram_rematches_before_every_instruction_witness :
  runProgram shapeIsOfType {| matcher := SPositive; instructions := [] |}
    (VNum 5) [] = Ok {| matched := false; output := VNum 5 |} []
  /\ shapeIsOfType (VNum 5) SPositive [] = true
  /\ modifier (transform minusTen) (VNum 5) [] = Ok (VNum (-5)) []
  /\ shapeIsOfType (VNum (-5)) SPositive [] = false
  /\ runProgram shapeIsOfType
       {| matcher := SPositive;
          instructions := [transform minusTen; transform plusOne] |}
       (VNum 5) []
     = Ok {| matched := true; output := VNum (-5) |} [].
Proof.
  pose proof (runProgram_rematches_before_every_instruction shapeIsOfType
                SPositive [] [transform plusOne] (transform minusTen)
                (VNum 5) []) as (_ & _ & Hskip).
  repeat (split; [reflexivity|]).
  exact (Hskip {| matched := false; output := VNum 5 |} [] (VNum (-5)) []
           eq_refl eq_refl eq_refl eq_refl).
Defined.

Lemma runPrograms_in_order_with_short_circuit_witness :
  runProgram shapeIsOfType
    {| matcher := SNumber; instructions := [replace (VNum 1)] |} (VNum 0) []
    = Ok {| matched := true; output := VNum 1 |} []
  /\ runPrograms shapeIsOfType
       [{| matcher := SNumber; instructions := [replace (VNum 1)] |};
        {| matcher := SNumber; instructions := [replace (VNum 2)] |}]
       {| stopAfterFirstMatch := true |} (VNum 0) []
     = Ok (VNum 1) []
  /\ runProgram shapeIsOfType
       {| matcher := SPositive; instructions := [replace (VNum 1)] |}
       (VNum 0) []
     = Ok {| matched := false; output := VNum 0 |} []
  /\ runPrograms shapeIsOfType
       [{| matcher := SPositive; instructions := [replace (VNum 1)] |};
        {| matcher := SNumber; instructions := [replace (VNum 2)] |}]
       {| stopAfterFirstMatch := true |} (VNum 0) []
     = runPrograms shapeIsOfType
         [{| matcher := SNumber; instructions := [replace (VNum 2)] |}]
         {| stopAfterFirstMatch := true |} (VNum 0) [].
Proof.
  pose proof (runPrograms_in_order_with_short_circuit shapeIsOfType
                {| matcher := SNumber; instructions := [replace (VNum 1)] |}
                [{| matcher := SNumber; instructions := [replace (VNum 2)] |}]
                {| stopAfterFirstMatch := true |} (VNum 0) [])
    as (_ & _ & Hstop & _).
  pose proof (runPrograms_in_order_with_short_circuit shapeIsOfType
                {| matcher := SPositive; instructions := [replace (VNum 1)] |}
                [{| matcher := SNumber; instructions := [replace (VNum 2)] |}]
                {| stopAfterFirstMatch := true |} (VNum 0) [])
    as (_ & _ & _ & Hpass).
  split; [reflexivity|]. split.
  { exact (Hstop {| matched := true; output := VNum 1 |} []
             eq_refl eq_refl eq_refl). }
  split; [reflexivity|].
  exact (Hpass {| matched := false; output := VNum 0 |} [] eq_refl eq_refl).
Defined.

Lemma parseIntoPrograms_instruction_before_matcher_witness :
  forallb (@isInstruction Shape) [TInstruction (replace VNull)] = true
  /\ parseIntoPrograms shapeCoerce
       ([TInstruction (replace VNull)]
          ++ TInstruction (replace (VNum 1)) :: [TDescription SAny])
     = inl instructionBeforeMatcher
  /\ makeBidoof shapeCoerce shapeIsOfType
       ([TInstruction (replace VNull)]
          ++ TInstruction (replace (VNum 1)) :: [TDescription SAny])
       defaultOptions
     = inl instructionBeforeMatcher.
Proof.
  pose proof (parseIntoPrograms_instruction_before_matcher shapeCoerce
                shapeIsOfType [TInstruction (replace VNull)]
                [TDescription SAny] (replace (VNum 1)) SAny [] defaultOptions)
    as [Hfail _].
  split; [reflexivity|]. exact (Hfail eq_refl).
Defined.

Lemma makeBidoof_identity_when_nothing_matches_witness :
  parseIntoPrograms shapeCoerce
    [TDescription SNumber; TInstruction (replace (VNum 1));
     TDescription SPositive; TInstruction (transform plusOne)]
  = inr [{| matcher := SNumber; instructions := [replace (VNum 1)] |};
         {| matcher := SPositive; instructions := [transform plusOne] |}]
  /\ Forall (fun p => shapeIsOfType (VStr "x") (matcher p) [] = false)
       [{| matcher := SNumber; instructions := [replace (VNum 1)] |};
        {| matcher := SPositive; instructions := [transform plusOne] |}]
  /\ runPrograms shapeIsOfType
       [{| matcher := SNumber; instructions := [replace (VNum 1)] |};
        {| matcher := SPositive; instructions := [transform plusOne] |}]
       defaultOptions (VStr "x") []
     = Ok (VStr "x") [].
Proof.
  assert (Forall (fun p => shapeIsOfType (VStr "x") (matcher p) [] = false)
            [{| matcher := SNumber; instructions := [replace (VNum 1)] |};
             {| matcher := SPositive; instructions := [transform plusOne] |}])
    as Hnone by (repeat constructor).
  split; [reflexivity|]. split; [exact Hnone|].
  exact (makeBidoof_identity_when_nothing_matches shapeCoerce shapeIsOfType
           [TDescription SNumber; TInstruction (replace (VNum 1));
            TDescription SPositive; TInstruction (transform plusOne)]
           defaultOptions _ _ (VStr "x") [] eq_refl eq_refl Hnone).
Defined.

Lemma replace_twice_is_replace_once_witness :
  shapeIsOfType (VNum 3) (shapeCoerce SNumber) [] = true
  /\ shapeIsOfType (VNum 7) (shapeCoerce SNumber) [] = true
  /\ runPrograms shapeIsOfType
       [{| matcher := SNumber; instructions := [replace (VNum 7)] |};
        {| matcher := SNumber; instructions := [replace (VNum 7)] |}]
       defaultOptions (VNum 3) []
     = runPrograms shapeIsOfType
         [{| matcher := SNumber; instructions := [replace (VNum 7)] |}]
         defaultOptions (VNum 3) []
  /\ runPrograms shapeIsOfType
       [{| matcher := SNumber; instructions := [replace (VNum 7)] |}]
       defaultOptions (VNum 3) []
     = Ok (VNum 7) [].
Proof.
  split; [reflexivity|]. split; [reflexivity|].
  exact (replace_twice_is_replace_once shapeCoerce shapeIsOfType SNumber
           (VNum 7) (VNum 3) defaultOptions [] _ _
           eq_refl eq_refl eq_refl eq_refl).
Defined.

(** * Further properties *)

(** ** The parser *)

Section ParserProperties.

Context {Description TypeDef : Type}.
Variable coerceToType : Description -> TypeDef.
Variable isOfType : Value -> TypeDef -> Heap -> bool.

Local Abbreviation Program := (@Program TypeDef).
Local Abbreviation Token := (@Token Description).
Local Abbreviation runProgram := (runProgram isOfType).
Local Abbreviation runPrograms := (runPrograms isOfType).
Local Abbreviation parseIntoPrograms := (parseIntoPrograms coerceToType).
Local Abbreviation parseLoop := (parseLoop coerceToType).
Local Abbreviation makeBidoof := (makeBidoof coerceToType isOfType).
Local Abbreviation groupProgram := (groupProgram coerceToType).

(** X1: parseIntoPrograms fails exactly on the lists whose first token is
    an instruction, always with the same error, and succeeds exactly on the
    empty list and on the lists that begin with a matcher description. *)
Theorem parseIntoPrograms_fails_iff (tokens : list Token) :
  (parseIntoPrograms tokens = inl instructionBeforeMatcher
   <-> exists i rest, tokens = TInstruction i :: rest)
  /\ (forall e, parseIntoPrograms tokens = inl e -> e = instructionBeforeMatcher)
  /\ ((exists programs, parseIntoPrograms tokens = inr programs)
      <-> tokens = [] \/ exists d rest, tokens = TDescription d :: rest).
Proof.
  destruct tokens as [|[d|i] rest].
  - split; [|split].
    + split; [done|]. by intros (i & rest & ?).
    + done.
    + split; [by left|]. intros _. by eexists.
  - destruct (parseLoop_groups coerceToType rest [] (d, []))
      as (gs & _ & st & Hloop & _).
    assert (parseIntoPrograms (TDescription d :: rest) = inr (seal st)) as Hp.
    { unfold parseIntoPrograms. simpl. unfold seal at 1. simpl.
      simpl in Hloop. unfold groupProgram in Hloop. simpl in Hloop.
      unfold newProgram. by rewrite Hloop. }
    rewrite Hp. split; [|split].
    + split; [done|]. by intros (i & rest' & ?).
    + done.
    + split; [|by eexists]. intros _. right. by eexists _, _.
  - assert (parseIntoPrograms (TInstruction i :: rest)
            = inl instructionBeforeMatcher) as Hp by done.
    rewrite Hp. split; [|split].
    + split; [|done]. intros _. by eexists _, _.
    + by intros e [= <-].
    + split; [by intros [? ?]|]. by intros [?|(? & ? & ?)].
Qed.

Lemma parseLoop_app (xs ys : list Token) st :
  parseLoop (xs ++ ys) st =
  match parseLoop xs st with
  | inl e => inl e
  | inr st' => parseLoop ys st'
  end.
Proof.
  revert st. induction xs as [|x xs IH]; intros st; simpl; [done|].
  destruct (parseItem coerceToType st x); [done|apply IH].
Qed.

Lemma parseLoop_instructions (ins : list Instruction) programs (p : Program) :
  parseLoop (map TInstruction ins) (programs, Some p)
  = inr (programs,
         Some {| matcher := matcher p; instructions := instructions p ++ ins |}).
Proof.
  revert p. induction ins as [|i ins IH]; intros p; simpl.
  - destruct p. simpl. by rewrite app_nil_r.
  - rewrite IH. unfold pushInstruction. simpl. by rewrite <- app_assoc.
Qed.

Lemma parseLoop_group g st :
  parseLoop (groupTokens g) st = inr (seal st, Some (groupProgram g)).
Proof.
  unfold groupTokens. simpl. by rewrite parseLoop_instructions.
Qed.

Lemma parseLoop_groups_snoc gs g :
  parseLoop (concat (map groupTokens (gs ++ [g]))) ([], None)
  = inr (map groupProgram gs, Some (groupProgram g)).
Proof.
  revert g. induction gs as [|g' gs IH] using rev_ind; intros g.
  - change (concat (map groupTokens ([] ++ [g]))) with (groupTokens g ++ []).
    rewrite app_nil_r. by rewrite parseLoop_group.
  - rewrite map_app, concat_app.
    change (concat (map groupTokens [g])) with (groupTokens g ++ []).
    rewrite app_nil_r, parseLoop_app, IH, parseLoop_group. unfold seal. simpl.
    by rewrite map_app.
Qed.

Lemma parseIntoPrograms_groups_eq
    (groups : list (Description * list Instruction)) :
  parseIntoPrograms (concat (map groupTokens groups))
    = inr (map groupProgram groups).
Proof.
  destruct groups as [|g gs] using rev_ind; [done|].
  unfold parseIntoPrograms. rewrite parseLoop_groups_snoc.
  unfold seal. simpl. by rewrite map_app.
Qed.

(** X2: parsing is the inverse of laying groups out as tokens: the
    tokens of any list of (description, instructions) groups parse into the
    programs of these groups, in order, and makeBidoof builds the transform
    that runs them. *)
Theorem parseIntoPrograms_of_groups
    (groups : list (Description * list Instruction)) (options : Options) :
  parseIntoPrograms (concat (map groupTokens groups))
    = inr (map groupProgram groups)
  /\ makeBidoof (concat (map groupTokens groups)) options
    = inr (fun input => runPrograms (map groupProgram groups) options input).
Proof.
  split; [apply parseIntoPrograms_groups_eq|].
  unfold makeBidoof. by rewrite parseIntoPrograms_groups_eq.
Qed.

End ParserProperties.

Section RunProperties.

Context {Description TypeDef : Type}.
Variable coerceToType : Description -> TypeDef.
Variable isOfType : Value -> TypeDef -> Heap -> bool.

Local Abbreviation Program := (@Program TypeDef).
Local Abbreviation Token := (@Token Description).
Local Abbreviation runInstruction := (runInstruction isOfType).
Local Abbreviation runProgram := (runProgram isOfType).
Local Abbreviation runPrograms := (runPrograms isOfType).
Local Abbreviation parseIntoPrograms := (parseIntoPrograms coerceToType).
Local Abbreviation makeBidoof := (makeBidoof coerceToType isOfType).
Local Abbreviation groupProgram := (groupProgram coerceToType).

Lemma for_of_matched_stays (program : Program) ins v h st h' :
  for_of ins (runInstruction program) (true, v) h = Ok st h' -> fst st = true.
Proof.
  revert v h. induction ins as [|i ins IH]; intros v h; simpl.
  - by intros [= <- _].
  - unfold bind at 1. unfold runInstruction at 1. unfold bind, matches. simpl.
    destruct (isOfType v (matcher program) h).
    + destruct (modifier i v h) as [v1 h1|e h1]; [apply IH|done].
    + apply IH.
Qed.

Lemma runProgram_outcome (program : Program) input h r h' :
  runProgram program input h = Ok r h' ->
  (matched r = true /\ isOfType input (matcher program) h = true
   /\ hasInstructions (instructions program) = true)
  \/ (r = {| matched := false; output := input |} /\ h' = h
      /\ (isOfType input (matcher program) h = false
          \/ instructions program = [])).
Proof.
  destruct (isOfType input (matcher program) h) eqn:Hm.
  2:{ rewrite runProgram_no_match by done. intros [= <- <-]. right. auto. }
  unfold runProgram, bind.
  destruct (instructions program) as [|i ins] eqn:Hins; simpl.
  { intros [= <- <-]. right. auto. }
  unfold bind at 1. unfold runInstruction at 1. unfold bind, matches. simpl.
  rewrite Hm. destruct (modifier i input h) as [v1 h1|e h1]; [|done]. simpl.
  destruct (for_of ins _ _ h1) as [st h2|e h2] eqn:Hloop; [|done].
  intros [= <- <-]. left. simpl. split; [|done].
  by eapply for_of_matched_stays.
Qed.

(** X4: when runProgram returns, [matched] is true exactly when the
    matcher accepted the input as it was given and the program has at least
    one instruction. *)
Theorem runProgram_matched_exactly (program : Program) (input : Value)
    (h : Heap) (r : RunResult) (h' : Heap) :
  runProgram program input h = Ok r h' ->
  matched r
  = isOfType input (matcher program) h
    && hasInstructions (instructions program).
Proof.
  intros Hrun.
  destruct (runProgram_outcome _ _ _ _ _ Hrun)
    as [(-> & -> & ->)|(-> & _ & [-> | ->])]; simpl; try done.
  by rewrite andb_false_r.
Qed.

(** X5: a run of a program that reports [matched = false] returned its
    input and left the store as it was. *)
Theorem runProgram_unmatched_changes_nothing (program : Program)
    (input : Value) (h : Heap) (r : RunResult) (h' : Heap) :
  runProgram program input h = Ok r h' ->
  matched r = false ->
  output r = input /\ h' = h.
Proof.
  intros Hrun Hm.
  destruct (runProgram_outcome _ _ _ _ _ Hrun)
    as [(Hm' & _)|(-> & -> & _)]; [congruence|done].
Qed.

Lemma runPrograms_skips_prefix (pre rest : list Program)
    (options : Options) (v : Value) (h : Heap) :
  Forall (fun p => isOfType v (matcher p) h = false) pre ->
  runPrograms (pre ++ rest) options v h = runPrograms rest options v h.
Proof.
  induction 1 as [|p ps Hp _ IH]; [done|]. simpl.
  rewrite runPrograms_cons, runProgram_no_match by done. simpl. apply IH.
Qed.

(** X6: leading programs whose matcher rejects the input are passed
    over, whatever the options: the run is the run of the programs that
    follow them. *)
Theorem runPrograms_skips_rejecting_prefix (pre rest : list Program)
    (options : Options) (v : Value) (h : Heap) :
  Forall (fun p => isOfType v (matcher p) h = false) pre ->
  runPrograms (pre ++ rest) options v h = runPrograms rest options v h.
Proof.
  intros Hpre. induction Hpre as [|p ps Hp _ IH]; [done|]. simpl.
  rewrite runPrograms_cons, runProgram_no_match by done. simpl. apply IH.
Qed.

Lemma runPrograms_app_continue (ps1 ps2 : list Program) options input h :
  stopAfterFirstMatch options = false ->
  runPrograms (ps1 ++ ps2) options input h
  = (let* v := runPrograms ps1 options input in runPrograms ps2 options v) h.
Proof.
  intros Hstop. revert input h.
  induction ps1 as [|p ps1 IH]; intros input h; [done|]. simpl.
  unfold bind. rewrite !runPrograms_cons.
  destruct (runProgram p input h) as [r h1|e h1]; [|done].
  rewrite Hstop, andb_false_r. rewrite IH. done.
Qed.

(** X3: when stopAfterFirstMatch is off, the transform of two
    descriptions put end to end is the transform of the first followed by
    the transform of the second, errors included. *)
Theorem makeBidoof_concatenation
    (groups1 groups2 : list (Description * list Instruction))
    (options : Options) :
  stopAfterFirstMatch options = false ->
  exists run1 run2 run,
    makeBidoof (concat (map groupTokens groups1)) options = inr run1
    /\ makeBidoof (concat (map groupTokens groups2)) options = inr run2
    /\ makeBidoof (concat (map groupTokens groups1)
                     ++ concat (map groupTokens groups2)) options = inr run
    /\ forall v h, run v h = (let* v1 := run1 v in run2 v1) h.
Proof.
  intros Hstop.
  pose proof (parseIntoPrograms_groups_eq coerceToType) as Hp.
  eexists _, _, _. unfold makeBidoof.
  rewrite <- concat_app, <- map_app, !Hp. repeat split.
  intros v h. rewrite map_app. by apply runPrograms_app_continue.
Qed.

(** X8: runPrograms never catches an error: when the run of a list of
    programs throws, the run of that list followed by more programs throws
    the same error in the same store, whatever the options. *)
Theorem runPrograms_never_swallows (ps1 ps2 : list Program)
    (options : Options) (input : Value) (h : Heap) (e : JsError) (h' : Heap) :
  runPrograms ps1 options input h = Throw e h' ->
  runPrograms (ps1 ++ ps2) options input h = Throw e h'.
Proof.
  revert input h. induction ps1 as [|p ps1 IH]; intros input h; [done|].
  simpl. rewrite !runPrograms_cons.
  destruct (runProgram p input h) as [r h1|e1 h1]; [|done].
  destruct (matched r && stopAfterFirstMatch options); [done|apply IH].
Qed.

Lemma runInstruction_accept (program : Program) st i h :
  isOfType (snd st) (matcher program) h = true ->
  runInstruction program st i h
  = match modifier i (snd st) h with
    | Ok v h' => Ok (true, v) h'
    | Throw e h' => Throw e h'
    end.
Proof.
  intros Hm. unfold runInstruction, bind, matches. rewrite Hm.
  by destruct (modifier i st.2 h).
Qed.

Lemma for_of_all_accepted (m : TypeDef) all ins b v h :
  (forall v h, isOfType v m h = true) ->
  for_of ins (runInstruction {| matcher := m; instructions := all |}) (b, v) h
  = match applyAll ins v h with
    | Ok v' h' => Ok (b || hasInstructions ins, v') h'
    | Throw e h' => Throw e h'
    end.
Proof.
  intros Hall. revert b v h. induction ins as [|i ins IH]; intros b v h.
  - simpl. unfold ret. by rewrite orb_false_r.
  - change (applyAll (i :: ins) v h)
      with ((let* v1 := modifier i v in applyAll ins v1) h).
    cbn [for_of]. unfold bind. rewrite runInstruction_accept by apply Hall.
    simpl. destruct (modifier i v h) as [v1 h1|e h1]; [|done].
    rewrite IH. destruct (applyAll ins v1 h1); [|done]. by rewrite orb_true_r.
Qed.

(** X9: under a matcher that accepts every value, a program applies all
    its instructions in order, each to the result of the one before, and
    reports a match as soon as it has an instruction. *)
Theorem runProgram_accepting_matcher (m : TypeDef) (ins : list Instruction)
    (input : Value) (h : Heap) :
  (forall v h, isOfType v m h = true) ->
  runProgram {| matcher := m; instructions := ins |} input h
  = match applyAll ins input h with
    | Ok v h' => Ok {| matched := hasInstructions ins; output := v |} h'
    | Throw e h' => Throw e h'
    end.
Proof.
  intros Hall. unfold runProgram, bind. simpl.
  rewrite for_of_all_accepted by done.
  by destruct (applyAll ins input h).
Qed.

(** X10: the transform of a matcher followed by replace(x) returns [x]
    on the inputs the matcher accepts and the input itself on the others,
    and leaves the store as it is. *)
Theorem makeBidoof_replace (d : Description) (x : Value) (options : Options) :
  exists run,
    makeBidoof [TDescription d; TInstruction (replace x)] options = inr run
    /\ forall v h,
         run v h = Ok (if isOfType v (coerceToType d) h then x else v) h.
Proof.
  eexists. split; [reflexivity|]. intros v h.
  unfold seal, newProgram, pushInstruction. simpl.
  rewrite runPrograms_cons, runProgram_replace.
  destruct (isOfType v (coerceToType d) h); simpl;
    by destruct (stopAfterFirstMatch options).
Qed.

End RunProperties.

(** ** Instructions *)

Lemma withoutMutating_ext i j :
  (forall v h, modifier i v h = modifier j v h) ->
  forall v h, modifier (withoutMutating i) v h = modifier (withoutMutating j) v h.
Proof.
  intros Hij v h. simpl. unfold immerProduce, bind.
  destruct (createDraft v h) as [d h1|e h1]; [|done]. by rewrite Hij.
Qed.

(** X11: on an input that is not an object, an instruction wrapped by
    withoutMutating runs on the input itself and its result is dropped: the
    wrapped instruction's errors apart, the result is the input. *)
Theorem withoutMutating_on_primitive (instruction : Instruction) (v : Value)
    (h : Heap) :
  isObjectValue v = false ->
  modifier (withoutMutating instruction) v h
  = (let* _ := modifier instruction v in ret v) h.
Proof.
  intros Hv. simpl. unfold immerProduce, bind, createDraft.
  destruct v; try done; by destruct (modifier instruction _ h).
Qed.

Lemma baseGet_pure object keys h : exists r, baseGet object keys h = Ok r h.
Proof.
  revert object. induction keys as [|key keys IH]; intros object; simpl.
  - by eexists.
  - destruct object as [| | | | |l]; try (by eexists);
      unfold bind, readProp; try apply IH.
    destruct (h !! l); apply IH.
Qed.

Lemma lodashGet_pure object path h : exists r, lodashGet object path h = Ok r h.
Proof.
  unfold lodashGet. destruct (castPath path); [by eexists|apply baseGet_pure].
Qed.

Lemma atMutate_replace path v input h :
  modifier (atMutate path (replace v)) input h
  = modifier (setMutate path v) input h.
Proof.
  simpl. unfold bind at 1.
  by destruct (lodashGet_pure input path h) as [r ->].
Qed.

(** X13: at(path, replace(v)) does what set(path, v) does, in the
    mutating and in the non-mutating form. *)
Theorem at_replace_is_set (path : Path) (v : Value) (input : Value)
    (h : Heap) :
  modifier (atMutate path (replace v)) input h
    = modifier (setMutate path v) input h
  /\ modifier (atNoMutate path (replace v)) input h
    = modifier (setNoMutate path v) input h.
Proof.
  split; [apply atMutate_replace|].
  apply withoutMutating_ext. intros. apply atMutate_replace.
Qed.


(** X15: two mutating appends in a row are one append of the items of
    the first followed by those of the second, and two mutating prepends
    are one prepend of the items of the second followed by those of the
    first, on every input (on a target that is not an array both sides
    throw). *)
Theorem append_prepend_compose (a b : list Value) (input : Value) (h : Heap) :
  (let* v := modifier (appendMutate a) input in modifier (appendMutate b) v) h
    = modifier (appendMutate (a ++ b)) input h
  /\ (let* v := modifier (prependMutate a) input in
      modifier (prependMutate b) v) h
    = modifier (prependMutate (b ++ a)) input h.
Proof.
  split; simpl; unfold bind, arrayPush, arrayUnshift;
    destruct input as [| | | | |l]; try done;
    destruct (h !! l) as [[props|elems]|] eqn:Hl; try done; simpl;
    apply lookup_lt_Some in Hl;
    rewrite list_lookup_insert_eq by done;
    by rewrite list_insert_insert_eq, <- ?app_assoc.
Qed.






Lemma preserved_region (h1 h2 : Heap) n :
  preserves h1 h2 -> n <= length h1 ->
  take (length h1 - n) (drop n h2) = drop n h1.
Proof.
  intros Hpre Hn. apply list_eq. intros j.
  rewrite lookup_drop. destruct (decide (j < length h1 - n)) as [Hj|Hj].
  - rewrite lookup_take_lt, lookup_drop by done.
    destruct (lookup_lt_is_Some_2 h1 (n + j)) as [o Ho]; [lia|].
    by rewrite Ho, (Hpre _ _ Ho).
  - rewrite lookup_take_ge by lia. symmetry. apply lookup_ge_None. lia.
Qed.

(** X12: wrapping twice disables an instruction: the result of
    withoutMutating(withoutMutating(i)) is always its input, and no cell of
    the store is changed, since the inner wrapper leaves the outer draft as
    it is and its result is dropped. *)
Theorem withoutMutating_twice (instruction : Instruction) (v out : Value)
    (h h' : Heap) :
  confined (modifier instruction) ->
  modifier (withoutMutating (withoutMutating instruction)) v h = Ok out h' ->
  out = v /\ preserves h h'.
Proof.
  intros Hi Hrun. split.
  2:{ pose proof (withoutMutating_preserves (withoutMutating instruction) v h)
        as Hpre.
      rewrite Hrun in Hpre. apply Hpre.
      intros w g l o Hl _. by apply withoutMutating_preserves. }
  revert Hrun. cbn [modifier withoutMutating].
  unfold immerProduce at 1. unfold bind at 1 2 3.
  destruct (createDraft v h) as [d h1|e h1] eqn:Hd; [|done].
  pose proof (withoutMutating_preserves instruction (draftProxy d) h1 Hi)
    as Hpre.
  cbn [modifier withoutMutating] in Hpre.
  destruct (immerProduce (draftProxy d) _ h1) as [r h2|e h2]; [|done].
  unfold ret, finishDraft. simpl in Hpre.
  unfold createDraft in Hd.
  destruct v as [| | | | |l]; injection Hd as <- <-; simpl;
    try (by intros [= <- _]).
  rewrite length_map.
  pose proof (preserved_region _ h2 (length h) Hpre) as Hreg.
  rewrite length_app, length_map, drop_app_length in Hreg.
  replace (length h + length h - length h) with (length h) in Hreg by lia.
  rewrite Hreg by lia. destruct (decide _); [by intros [= <- _]|done].
Qed.

(** ** The older engine *)

Section LegacyProperties.

Context {Description TypeDef : Type}.
Variable coerceToType : Description -> TypeDef.
Variable isOfType : Value -> TypeDef -> Heap -> bool.
Variable produceWith : Value -> (Value -> M Value) -> M Value.

Local Abbreviation collectGroups := (Legacy.collectGroups coerceToType).
Local Abbreviation collectLoop := (Legacy.collectLoop coerceToType).
Local Abbreviation processInstruction := (Legacy.processInstruction produceWith).
Local Abbreviation applyGroup :=
  (Legacy.applyGroup isOfType produceWith).
Local Abbreviation doBidoof :=
  (Legacy.doBidoof coerceToType isOfType produceWith).
Local Abbreviation legacyMakeBidoof :=
  (Legacy.makeBidoof coerceToType isOfType produceWith).
Local Abbreviation parseIntoPrograms := (parseIntoPrograms coerceToType).
Local Abbreviation parseLoop := (parseLoop coerceToType).
Local Abbreviation makeBidoof := (makeBidoof coerceToType isOfType).

Lemma collectLoop_simulates (f : Legacy.BidoofInstruction -> Instruction)
    (tokens : list Legacy.Token) (st : Legacy.CollectState) :
  match collectLoop tokens st,
        parseLoop (map (translateToken f) tokens)
          (map (translateGroup f) (fst st), translateGroup f <$> snd st) with
  | inl e1, inl e2 =>
      e1 = Legacy.instructionBeforeDescription
      /\ e2 = instructionBeforeMatcher
  | inr st1, inr st2 =>
      st2 = (map (translateGroup f) (fst st1), translateGroup f <$> snd st1)
  | _, _ => False
  end.
Proof.
  revert st. induction tokens as [|[d|i] tokens IH]; intros [groups cur].
  - done.
  - simpl.
    specialize (IH (Legacy.pushGroup (groups, cur),
                    Some {| Legacy.matcher := coerceToType d;
                            Legacy.instructions := [] |})).
    replace (seal (map (translateGroup f) groups, translateGroup f <$> cur))
      with (map (translateGroup f) (Legacy.pushGroup (groups, cur)))
      by (destruct cur; simpl; unfold seal, Legacy.pushGroup; simpl;
          [by rewrite map_app|done]).
    exact IH.
  - simpl. destruct cur as [g|]; simpl; [|done].
    specialize (IH (groups,
                    Some {| Legacy.matcher := Legacy.matcher g;
                            Legacy.instructions :=
                              Legacy.instructions g ++ [i] |})).
    simpl in IH. unfold pushInstruction, translateGroup in *. simpl in *.
    by rewrite map_app in IH.
Qed.

(** X19: the older collectGroups groups a description as
    parseIntoPrograms does: both fail on the same lists, each with its own
    message, and on the others the programs are the groups, instruction for
    instruction. *)
Theorem collectGroups_groups_as_parseIntoPrograms
    (f : Legacy.BidoofInstruction -> Instruction)
    (tokens : list Legacy.Token) :
  match collectGroups tokens,
        parseIntoPrograms (map (translateToken f) tokens) with
  | inl e1, inl e2 =>
      e1 = Legacy.instructionBeforeDescription
      /\ e2 = instructionBeforeMatcher
  | inr groups, inr programs => programs = map (translateGroup f) groups
  | _, _ => False
  end.
Proof.
  pose proof (collectLoop_simulates f tokens ([], None)) as H.
  unfold Legacy.collectGroups, parseIntoPrograms. simpl in H.
  destruct (collectLoop tokens ([], None)) as [e1|[groups cur]],
    (parseLoop (map (translateToken f) tokens) ([], None)) as [e2|st2];
    try done.
  subst st2. destruct cur; simpl; unfold seal, Legacy.pushGroup; simpl;
    [by rewrite map_app|done].
Qed.

(** X20: the older makeBidoof does not parse when the transform is
    built: it always returns a function, and a description that begins with
    an instruction throws each time the function is applied, whatever the
    target. *)
Theorem legacy_makeBidoof_parses_when_called
    (i : Legacy.BidoofInstruction) (rest : list Legacy.Token)
    (options : Options) (target : Value) (h : Heap) :
  (exists run,
     legacyMakeBidoof (inl (Legacy.TInstruction i :: rest)) = inl run
     /\ run target h = Throw Legacy.instructionBeforeDescription h)
  /\ (exists build,
        legacyMakeBidoof (inr options) = inr build
        /\ build (Legacy.TInstruction i :: rest) target h
           = Throw Legacy.instructionBeforeDescription h).
Proof.
  split; by eexists.
Qed.

Lemma applyGroup_reject target options current (g : Legacy.BidoofGroup) h :
  isOfType target (Legacy.matcher g) h = false ->
  applyGroup target options current g h = Ok (Continue current) h.
Proof. intros Hm. unfold Legacy.applyGroup. by rewrite Hm. Qed.

Lemma legacy_loop_rejecting target options current
    (pre rest : list Legacy.BidoofGroup) h :
  Forall (fun g => isOfType target (Legacy.matcher g) h = false) pre ->
  for_of_break (pre ++ rest) (applyGroup target options) current h
  = for_of_break rest (applyGroup target options) current h.
Proof.
  induction 1 as [|g gs Hg _ IH]; [done|]. simpl.
  unfold bind at 1. by rewrite applyGroup_reject.
Qed.

(** X21: the older doBidoof returns a target that no group's matcher
    accepts, in the same store. *)
Theorem doBidoof_identity_when_nothing_matches
    (tokens : list Legacy.Token) (groups : list Legacy.BidoofGroup)
    (options : Options) (target : Value) (h : Heap) :
  collectGroups tokens = inr groups ->
  Forall (fun g => isOfType target (Legacy.matcher g) h = false) groups ->
  doBidoof target options tokens h = Ok target h.
Proof.
  intros Hgroups Hnone. unfold Legacy.doBidoof. rewrite Hgroups.
  rewrite <- (app_nil_r groups). by rewrite legacy_loop_rejecting.
Qed.

(** X22: with stopAfterFirstMatch, the older doBidoof applies, after
    groups that reject the target, all the instructions of the first group
    that accepts it, without testing the matcher again, and nothing else. *)
Theorem doBidoof_first_match_wins
    (tokens : list Legacy.Token) (pre rest : list Legacy.BidoofGroup)
    (g : Legacy.BidoofGroup) (options : Options) (target : Value) (h : Heap) :
  collectGroups tokens = inr (pre ++ g :: rest) ->
  Forall (fun g => isOfType target (Legacy.matcher g) h = false) pre ->
  isOfType target (Legacy.matcher g) h = true ->
  stopAfterFirstMatch options = true ->
  doBidoof target options tokens h
  = for_of (Legacy.instructions g)
      (fun current instruction => processInstruction current instruction)
      target h.
Proof.
  intros Hgroups Hpre Hg Hstop. unfold Legacy.doBidoof. rewrite Hgroups.
  rewrite legacy_loop_rejecting by done. simpl. unfold bind at 1.
  unfold Legacy.applyGroup at 1. rewrite Hg. unfold bind at 1.
  destruct (for_of (Legacy.instructions g) _ target h) as [v h1|e h1]; [|done].
  by rewrite Hstop.
Qed.

Lemma immerProduce_ext base (recipe1 recipe2 : Value -> M unit) h :
  (forall v h, recipe1 v h = recipe2 v h) ->
  immerProduce base recipe1 h = immerProduce base recipe2 h.
Proof.
  intros Hext. unfold immerProduce, bind.
  destruct (createDraft base h) as [d h1|e h1]; [|done]. by rewrite Hext.
Qed.

Lemma then_ret_unit (m : M unit) (v : Value) h :
  (let* _ := (let* _ := m in ret v) in ret tt) h = m h.
Proof. unfold bind, ret. by destruct (m h) as [[] h'|e h']. Qed.

Lemma processInstruction_agrees
    (instruction : Legacy.BidoofInstruction) (next : Instruction)
    (target : Value) (h : Heap) :
  Legacy.successor instruction = Some next ->
  processInstruction target instruction h = modifier next target h.
Proof.
  destruct instruction; intros [= <-]; try reflexivity;
    apply immerProduce_ext; intros v g; symmetry;
    [apply (then_ret_unit (lodashMerge v other))
    |apply (then_ret_unit (lodashSet v path value))].
Qed.

(** X23: for the kinds merge, mergeMutate, set, setMutate, modifyMutate
    and replace, the older processInstruction does what the modifier of the
    instruction of the same name in instructions.ts does. *)
Theorem processInstruction_as_successor
    (instruction : Legacy.BidoofInstruction) (next : Instruction)
    (target : Value) (h : Heap) :
  Legacy.successor instruction = Some next ->
  processInstruction target instruction h = modifier next target h.
Proof.
  destruct instruction; intros [= <-]; try reflexivity;
    apply immerProduce_ext; intros v g; symmetry;
    [apply (then_ret_unit (lodashMerge v other))
    |apply (then_ret_unit (lodashSet v path value))].
Qed.

(** X24: on a description made of one matcher and one instruction of
    these kinds, the older and the newer engine give the same result on
    every target, for any options. *)
Theorem engines_agree_on_one_instruction
    (d : Description) (instruction : Legacy.BidoofInstruction)
    (next : Instruction) (options : Options) (target : Value) (h : Heap) :
  Legacy.successor instruction = Some next ->
  exists run,
    makeBidoof [TDescription d; TInstruction next] options = inr run
    /\ doBidoof target options
         [Legacy.TDescription d; Legacy.TInstruction instruction] h
       = run target h.
Proof.
  intros Hnext.
  exists (fun input =>
            runPrograms isOfType
              [{| matcher := coerceToType d; instructions := [] ++ [next] |}]
              options input).
  split; [reflexivity|].
  rewrite (runPrograms_cons isOfType).
  rewrite (runProgram_snoc isOfType (coerceToType d) [] next target h).
  change (runProgram isOfType
            {| matcher := coerceToType d; instructions := [] |} target h)
    with (Ok {| matched := false; output := target |} h).
  cbn [output].
  unfold Legacy.doBidoof. cbn [Legacy.collectGroups Legacy.collectLoop
    Legacy.collectItem Legacy.pushGroup fst snd app for_of_break].
  unfold bind at 1. unfold Legacy.applyGroup. cbn [Legacy.matcher].
  destruct (isOfType target (coerceToType d) h); [|done].
  cbn [Legacy.instructions for_of app]. unfold bind, ret.
  rewrite (processInstruction_agrees _ _ _ _ Hnext).
  destruct (modifier next target h) as [v h1|e h1]; [|done]. simpl.
  by destruct (stopAfterFirstMatch options).
Qed.

End LegacyProperties.

(** X18: set fails when the path cannot be written: asked to give an
    array a length that is negative or greater than 2^32 - 1, set throws a
    RangeError, in both forms, and the mutating form leaves the store as it
    was. *)
Theorem set_invalid_length_throws (n : Z) (elems : list Value) (l : loc)
    (h : Heap) :
  h !! l = Some (OArray elems) ->
  (n < 0 \/ maxArrayLength < n)%Z ->
  modifier (setMutate (PString "length") (VNum n)) (VRef l) h
    = Throw RangeError h
  /\ exists h',
       modifier (setNoMutate (PString "length") (VNum n)) (VRef l) h
       = Throw RangeError h'.
Proof.
  intros Hl Hn.
  assert (((0 <=? n) && (n <=? maxArrayLength))%Z = false) as Hrange.
  { apply andb_false_iff. destruct Hn; [left|right]; lia. }
  split.
  - simpl. unfold bind, writeProp. rewrite Hl. simpl.
    change (isLengthKey (KStr "length")) with true. simpl.
    by rewrite Hrange.
  - eexists. simpl. unfold immerProduce, bind, createDraft. simpl.
    unfold writeProp. rewrite lookup_copy, Hl. simpl.
    change (isLengthKey (KStr "length")) with true. simpl.
    by rewrite Hrange.
Qed.

(** X17: on a target that is not an object, set and merge do nothing and
    return the target, in both forms; deleteProperty does the same in both
    forms: it throws a TypeError on [null] and [undefined], and on a string
    when the property is its [length] or one of its characters, which
    cannot be deleted, and returns the target otherwise. *)
Theorem instructions_on_primitive (path : Path) (value other : Value)
    (propertyName : string) (v : Value) (h : Heap) :
  isObjectValue v = false ->
  modifier (setMutate path value) v h = Ok v h
  /\ modifier (setNoMutate path value) v h = Ok v h
  /\ modifier (mergeMutate other) v h = Ok v h
  /\ modifier (mergeNoMutate other) v h = Ok v h
  /\ modifier (deletePropertyNoMutate propertyName) v h
     = modifier (deletePropertyMutate propertyName) v h
  /\ modifier (deletePropertyMutate propertyName) v h
     = match v with
       | VUndefined | VNull => Throw TypeError h
       | VStr s =>
           if stringHasOwn s propertyName then Throw TypeError h else Ok v h
       | _ => Ok v h
       end.
Proof.
  intros Hv. destruct v as [| | | |s|l]; try done.
  repeat split; simpl; unfold immerProduce, bind, deleteOp; simpl;
    by destruct (stringHasOwn s propertyName).
Qed.

Section MoreEngine.

Context {Description TypeDef : Type}.
Variable coerceToType : Description -> TypeDef.
Variable isOfType : Value -> TypeDef -> Heap -> bool.
Variable produceWith : Value -> (Value -> M Value) -> M Value.

Local Abbreviation doBidoof :=
  (Legacy.doBidoof coerceToType isOfType produceWith).
Local Abbreviation runProgram := (runProgram isOfType).
Local Abbreviation runPrograms := (runPrograms isOfType).
Local Abbreviation makeBidoof := (makeBidoof coerceToType isOfType).

(** X7: with stopAfterFirstMatch, after programs that reject the input,
    the first program that matches decides the result: its output is
    returned and what follows it is not run. *)
Theorem runPrograms_first_match_wins (pre post : list (@Program TypeDef))
    (p : @Program TypeDef) (options : Options) (v : Value) (h : Heap)
    (r : RunResult) (h' : Heap) :
  Forall (fun p => isOfType v (matcher p) h = false) pre ->
  runProgram p v h = Ok r h' ->
  matched r = true ->
  stopAfterFirstMatch options = true ->
  runPrograms (pre ++ p :: post) options v h = Ok (output r) h'.
Proof.
  intros Hpre Hrun Hm Hstop.
  rewrite (runPrograms_skips_prefix isOfType) by done.
  by rewrite (runPrograms_cons isOfType), Hrun, Hm, Hstop.
Qed.

(** X25: the two engines test different values.  After a first group
    that replaced the target by [x], the older engine decides the second
    group on the target it was called with, the newer on [x]; and inside a
    group the older engine runs a second instruction unconditionally, where
    the newer tests [x] against the matcher again. *)
Theorem engines_test_different_values (d1 d2 : Description) (x y : Value)
    (target : Value) (h : Heap) :
  isOfType target (coerceToType d1) h = true ->
  (doBidoof target defaultOptions
     [Legacy.TDescription d1; Legacy.TInstruction (Legacy.IReplace x);
      Legacy.TDescription d2; Legacy.TInstruction (Legacy.IReplace y)] h
   = Ok (if isOfType target (coerceToType d2) h then y else x) h
   /\ exists run,
       makeBidoof [TDescription d1; TInstruction (replace x);
                   TDescription d2; TInstruction (replace y)] defaultOptions
         = inr run
       /\ run target h = Ok (if isOfType x (coerceToType d2) h then y else x) h)
  /\ (doBidoof target defaultOptions
        [Legacy.TDescription d1; Legacy.TInstruction (Legacy.IReplace x);
         Legacy.TInstruction (Legacy.IReplace y)] h
      = Ok y h
      /\ exists run,
          makeBidoof [TDescription d1; TInstruction (replace x);
                      TInstruction (replace y)] defaultOptions = inr run
          /\ run target h
             = Ok (if isOfType x (coerceToType d1) h then y else x) h).
Proof.
  intros Hd1. split; split.
  - unfold Legacy.doBidoof. simpl. unfold bind, Legacy.applyGroup. simpl.
    rewrite Hd1. simpl.
    by destruct (isOfType target (coerceToType d2) h).
  - eexists. split; [reflexivity|].
    unfold seal, newProgram, pushInstruction. simpl.
    rewrite !(runPrograms_cons isOfType), !(runProgram_replace isOfType).
    rewrite Hd1. simpl.
    rewrite !(runPrograms_cons isOfType), !(runProgram_replace isOfType).
    by destruct (isOfType x (coerceToType d2) h).
  - unfold Legacy.doBidoof. simpl. unfold bind, Legacy.applyGroup. simpl.
    by rewrite Hd1.
  - eexists. split; [reflexivity|].
    unfold seal, newProgram, pushInstruction. simpl.
    rewrite (runPrograms_cons isOfType).
    unfold runProgram, bind. simpl.
    unfold bind, runInstruction, bind, matches. simpl. rewrite Hd1. simpl.
    by destruct (isOfType x (coerceToType d1) h).
Qed.

End MoreEngine.

(** ** The further properties on examples *)

Lemma makeBidoof_concatenation_witness :
  stopAfterFirstMatch defaultOptions = false
  /\ exists run1 run2 run,
      makeBidoof shapeCoerce shapeIsOfType
        (concat (map groupTokens [(SNumber, [transform plusOne])]))
        defaultOptions = inr run1
      /\ makeBidoof shapeCoerce shapeIsOfType
           (concat (map groupTokens [(SPositive, [transform minusTen])]))
           defaultOptions = inr run2
      /\ makeBidoof shapeCoerce shapeIsOfType
           (concat (map groupTokens [(SNumber, [transform plusOne])])
              ++ concat (map groupTokens [(SPositive, [transform minusTen])]))
           defaultOptions = inr run
      /\ forall v h, run v h = (let* v1 := run1 v in run2 v1) h.
Proof.
  exact (conj eq_refl
           (makeBidoof_concatenation shapeCoerce shapeIsOfType
              [(SNumber, [transform plusOne])]
              [(SPositive, [transform minusTen])] defaultOptions eq_refl)).
Defined.

Lemma runProgram_matched_exactly_witness :
  runProgram shapeIsOfType
    {| matcher := SPositive; instructions := [transform minusTen] |}
    (VNum 5) [] = Ok {| matched := true; output := VNum (-5) |} []
  /\ true = shapeIsOfType (VNum 5) SPositive []
            && hasInstructions [transform minusTen].
Proof.
  exact (conj eq_refl
           (runProgram_matched_exactly shapeIsOfType
              {| matcher := SPositive; instructions := [transform minusTen] |}
              (VNum 5) [] {| matched := true; output := VNum (-5) |} []
              eq_refl)).
Defined.

Lemma runProgram_unmatched_changes_nothing_witness :
  runProgram shapeIsOfType
    {| matcher := SPositive; instructions := [replace (VNum 1)] |}
    (VNum 0) storeAB5 = Ok {| matched := false; output := VNum 0 |} storeAB5
  /\ false = false
  /\ VNum 0 = VNum 0 /\ storeAB5 = storeAB5.
Proof.
  exact (conj eq_refl (conj eq_refl
           (runProgram_unmatched_changes_nothing shapeIsOfType
              {| matcher := SPositive; instructions := [replace (VNum 1)] |}
              (VNum 0) storeAB5 {| matched := false; output := VNum 0 |}
              storeAB5 eq_refl eq_refl))).
Defined.

Lemma runPrograms_skips_rejecting_prefix_witness :
  Forall (fun p => shapeIsOfType (VNum 0) (matcher p) [] = false)
    [{| matcher := SPositive; instructions := [replace (VNum 1)] |}]
  /\ runPrograms shapeIsOfType
       ([{| matcher := SPositive; instructions := [replace (VNum 1)] |}]
          ++ [{| matcher := SNumber; instructions := [replace (VNum 2)] |}])
       defaultOptions (VNum 0) []
     = runPrograms shapeIsOfType
         [{| matcher := SNumber; instructions := [replace (VNum 2)] |}]
         defaultOptions (VNum 0) [].
Proof.
  assert (Forall (fun p => shapeIsOfType (VNum 0) (matcher p) [] = false)
            [{| matcher := SPositive; instructions := [replace (VNum 1)] |}])
    as Hpre by (repeat constructor).
  exact (conj Hpre
           (runPrograms_skips_rejecting_prefix shapeIsOfType _ _
              defaultOptions (VNum 0) [] Hpre)).
Defined.

Lemma runPrograms_first_match_wins_witness :
  Forall (fun p => shapeIsOfType (VNum 0) (matcher p) [] = false)
    [{| matcher := SPositive; instructions := [replace (VNum 1)] |}]
  /\ runProgram shapeIsOfType
       {| matcher := SNumber; instructions := [replace (VNum 2)] |}
       (VNum 0) [] = Ok {| matched := true; output := VNum 2 |} []
  /\ runPrograms shapeIsOfType
       ([{| matcher := SPositive; instructions := [replace (VNum 1)] |}]
          ++ {| matcher := SNumber; instructions := [replace (VNum 2)] |}
          :: [{| matcher := SAny; instructions := [replace (VNum 3)] |}])
       {| stopAfterFirstMatch := true |} (VNum 0) []
     = Ok (VNum 2) [].
Proof.
  assert (Forall (fun p => shapeIsOfType (VNum 0) (matcher p) [] = false)
            [{| matcher := SPositive; instructions := [replace (VNum 1)] |}])
    as Hpre by (repeat constructor).
  exact (conj Hpre (conj eq_refl
           (runPrograms_first_match_wins shapeIsOfType _
              [{| matcher := SAny; instructions := [replace (VNum 3)] |}]
              {| matcher := SNumber; instructions := [replace (VNum 2)] |}
              {| stopAfterFirstMatch := true |} (VNum 0) []
              {| matched := true; output := VNum 2 |} []
              Hpre eq_refl eq_refl eq_refl))).
Defined.

Lemma runPrograms_never_swallows_witness :
  runPrograms shapeIsOfType
    [{| matcher := SNumber; instructions := [appendMutate [VNum 1]] |}]
    defaultOptions (VNum 5) [] = Throw TypeError []
  /\ runPrograms shapeIsOfType
       ([{| matcher := SNumber; instructions := [appendMutate [VNum 1]] |}]
          ++ [{| matcher := SAny; instructions := [replace VNull] |}])
       defaultOptions (VNum 5) [] = Throw TypeError [].
Proof.
  exact (conj eq_refl
           (runPrograms_never_swallows shapeIsOfType
              [{| matcher := SNumber;
                  instructions := [appendMutate [VNum 1]] |}]
              [{| matcher := SAny; instructions := [replace VNull] |}]
              defaultOptions (VNum 5) [] TypeError [] eq_refl)).
Defined.

Lemma runProgram_accepting_matcher_witness :
  (forall v h, shapeIsOfType v SAny h = true)
  /\ runProgram shapeIsOfType
       {| matcher := SAny;
          instructions := [transform minusTen; transform plusOne] |}
       (VNum 5) []
     = match applyAll [transform minusTen; transform plusOne] (VNum 5) [] with
       | Ok v h' =>
           Ok {| matched :=
                   hasInstructions [transform minusTen; transform plusOne];
                 output := v |} h'
       | Throw e h' => Throw e h'
       end.
Proof.
  exact (conj (fun _ _ => eq_refl)
           (runProgram_accepting_matcher shapeIsOfType SAny
              [transform minusTen; transform plusOne] (VNum 5) []
              (fun _ _ => eq_refl))).
Defined.

Lemma withoutMutating_on_primitive_witness :
  isObjectValue (VNum 5) = false
  /\ modifier (withoutMutating (transform plusOne)) (VNum 5) []
     = (let* _ := modifier (transform plusOne) (VNum 5) in ret (VNum 5)) [].
Proof.
  exact (conj eq_refl
           (withoutMutating_on_primitive (transform plusOne) (VNum 5) []
              eq_refl)).
Defined.

Lemma withoutMutating_twice_witness :
  confined (modifier (setMutate (PString "a.b") (VNum 6)))
  /\ exists h',
      modifier (withoutMutating
                  (withoutMutating (setMutate (PString "a.b") (VNum 6))))
        (VRef 0) storeAB5 = Ok (VRef 0) h'
      /\ VRef 0 = VRef 0 /\ preserves storeAB5 h'.
Proof.
  assert (confined (modifier (setMutate (PString "a.b") (VNum 6)))) as Hc
    by exact (confined_mutating (KSet (PString "a.b") (VNum 6)) I).
  split; [exact Hc|]. eexists. split; [vm_compute; reflexivity|].
  exact (withoutMutating_twice (setMutate (PString "a.b") (VNum 6))
           (VRef 0) (VRef 0) storeAB5 _ Hc eq_refl).
Defined.


Lemma instructions_on_primitive_witness :
  isObjectValue (VStr "abc") = false
  /\ modifier (setMutate (PString "a") (VNum 1)) (VStr "abc") []
     = Ok (VStr "abc") []
  /\ modifier (setNoMutate (PString "a") (VNum 1)) (VStr "abc") []
     = Ok (VStr "abc") []
  /\ modifier (mergeMutate (VNum 1)) (VStr "abc") [] = Ok (VStr "abc") []
  /\ modifier (mergeNoMutate (VNum 1)) (VStr "abc") [] = Ok (VStr "abc") []
  /\ modifier (deletePropertyNoMutate "length") (VStr "abc") []
     = modifier (deletePropertyMutate "length") (VStr "abc") []
  /\ modifier (deletePropertyMutate "length") (VStr "abc") []
     = Throw TypeError [].
Proof.
  exact (conj eq_refl
           (instructions_on_primitive (PString "a") (VNum 1) (VNum 1) "length"
              (VStr "abc") [] eq_refl)).
Defined.

Lemma set_invalid_length_throws_witness :
  ([OArray []] : Heap) !! 0 = Some (OArray [])
  /\ (-1 < 0 \/ maxArrayLength < -1)%Z
  /\ modifier (setMutate (PString "length") (VNum (-1))) (VRef 0) [OArray []]
     = Throw RangeError [OArray []]
  /\ exists h',
       modifier (setNoMutate (PString "length") (VNum (-1))) (VRef 0)
         [OArray []]
       = Throw RangeError h'.
Proof.
  assert (-1 < 0 \/ maxArrayLength < -1)%Z as Hn by (left; lia).
  exact (conj eq_refl (conj Hn
           (set_invalid_length_throws (-1) [] 0 [OArray []] eq_refl Hn))).
Defined.

Lemma doBidoof_identity_when_nothing_matches_witness :
  Legacy.collectGroups shapeCoerce
    [Legacy.TDescription SNumber; Legacy.TInstruction (Legacy.IReplace VNull)]
  = inr [{| Legacy.matcher := SNumber;
            Legacy.instructions := [Legacy.IReplace VNull] |}]
  /\ Forall (fun g => shapeIsOfType (VStr "x") (Legacy.matcher g) [] = false)
       [{| Legacy.matcher := SNumber;
           Legacy.instructions := [Legacy.IReplace VNull] |}]
  /\ Legacy.doBidoof shapeCoerce shapeIsOfType (fun v f => f v) (VStr "x")
       defaultOptions
       [Legacy.TDescription SNumber;
        Legacy.TInstruction (Legacy.IReplace VNull)] []
     = Ok (VStr "x") [].
Proof.
  assert (Forall
            (fun g => shapeIsOfType (VStr "x") (Legacy.matcher g) [] = false)
            [{| Legacy.matcher := SNumber;
                Legacy.instructions := [Legacy.IReplace VNull] |}])
    as Hnone by (repeat constructor).
  exact (conj eq_refl (conj Hnone
           (doBidoof_identity_when_nothing_matches shapeCoerce shapeIsOfType
              (fun v f => f v)
              [Legacy.TDescription SNumber;
               Legacy.TInstruction (Legacy.IReplace VNull)]
              [{| Legacy.matcher := SNumber;
                  Legacy.instructions := [Legacy.IReplace VNull] |}]
              defaultOptions (VStr "x") [] eq_refl Hnone))).
Defined.

Lemma doBidoof_first_match_wins_witness :
  Legacy.collectGroups shapeCoerce
    [Legacy.TDescription SPositive; Legacy.TInstruction (Legacy.IReplace VNull);
     Legacy.TDescription SNumber;
     Legacy.TInstruction (Legacy.IReplace (VNum 2));
     Legacy.TDescription SAny; Legacy.TInstruction (Legacy.IReplace (VNum 3))]
  = inr ([{| Legacy.matcher := SPositive;
             Legacy.instructions := [Legacy.IReplace VNull] |}]
           ++ {| Legacy.matcher := SNumber;
                 Legacy.instructions := [Legacy.IReplace (VNum 2)] |}
           :: [{| Legacy.matcher := SAny;
                  Legacy.instructions := [Legacy.IReplace (VNum 3)] |}])
  /\ Legacy.doBidoof shapeCoerce shapeIsOfType (fun v f => f v) (VNum 0)
       {| stopAfterFirstMatch := true |}
       [Legacy.TDescription SPositive;
        Legacy.TInstruction (Legacy.IReplace VNull);
        Legacy.TDescription SNumber;
        Legacy.TInstruction (Legacy.IReplace (VNum 2));
        Legacy.TDescription SAny;
        Legacy.TInstruction (Legacy.IReplace (VNum 3))] []
     = for_of [Legacy.IReplace (VNum 2)]
         (fun current instruction =>
            Legacy.processInstruction (fun v f => f v) current instruction)
         (VNum 0) [].
Proof.
  assert (Forall
            (fun g => shapeIsOfType (VNum 0) (Legacy.matcher g) [] = false)
            [{| Legacy.matcher := SPositive;
                Legacy.instructions := [Legacy.IReplace VNull] |}])
    as Hpre by (repeat constructor).
  exact (conj eq_refl
           (doBidoof_first_match_wins shapeCoerce shapeIsOfType
              (fun v f => f v)
              [Legacy.TDescription SPositive;
               Legacy.TInstruction (Legacy.IReplace VNull);
               Legacy.TDescription SNumber;
               Legacy.TInstruction (Legacy.IReplace (VNum 2));
               Legacy.TDescription SAny;
               Legacy.TInstruction (Legacy.IReplace (VNum 3))]
              [{| Legacy.matcher := SPositive;
                  Legacy.instructions := [Legacy.IReplace VNull] |}]
              [{| Legacy.matcher := SAny;
                  Legacy.instructions := [Legacy.IReplace (VNum 3)] |}]
              {| Legacy.matcher := SNumber;
                 Legacy.instructions := [Legacy.IReplace (VNum 2)] |}
              {| stopAfterFirstMatch := true |} (VNum 0) []
              eq_refl Hpre eq_refl eq_refl)).
Defined.

Lemma processInstruction_as_successor_witness :
  Legacy.successor (Legacy.ISet (PString "a.b") (VNum 6))
  = Some (setNoMutate (PString "a.b") (VNum 6))
  /\ Legacy.processInstruction (fun v f => f v) (VRef 0)
       (Legacy.ISet (PString "a.b") (VNum 6)) storeAB5
     = modifier (setNoMutate (PString "a.b") (VNum 6)) (VRef 0) storeAB5.
Proof.
  exact (conj eq_refl
           (processInstruction_as_successor (fun v f => f v)
              (Legacy.ISet (PString "a.b") (VNum 6)) _ (VRef 0) storeAB5
              eq_refl)).
Defined.

Lemma engines_agree_on_one_instruction_witness :
  Legacy.successor (Legacy.ISet (PString "a.b") (VNum 6))
  = Some (setNoMutate (PString "a.b") (VNum 6))
  /\ exists run,
      makeBidoof shapeCoerce shapeIsOfType
        [TDescription SAny;
         TInstruction (setNoMutate (PString "a.b") (VNum 6))]
        defaultOptions = inr run
      /\ Legacy.doBidoof shapeCoerce shapeIsOfType (fun v f => f v) (VRef 0)
           defaultOptions
           [Legacy.TDescription SAny;
            Legacy.TInstruction (Legacy.ISet (PString "a.b") (VNum 6))]
           storeAB5
         = run (VRef 0) storeAB5.
Proof.
  exact (conj eq_refl
           (engines_agree_on_one_instruction shapeCoerce shapeIsOfType
              (fun v f => f v) SAny (Legacy.ISet (PString "a.b") (VNum 6))
              _ defaultOptions (VRef 0) storeAB5 eq_refl)).
Defined.

Lemma engines_test_different_values_witness :
  shapeIsOfType (VNum 5) (shapeCoerce SNumber) [] = true
  /\ Legacy.doBidoof shapeCoerce shapeIsOfType (fun v f => f v) (VNum 5)
       defaultOptions
       [Legacy.TDescription SNumber;
        Legacy.TInstruction (Legacy.IReplace (VNum (-1)));
        Legacy.TDescription SPositive;
        Legacy.TInstruction (Legacy.IReplace (VNum 7))] []
     = Ok (VNum 7) []
  /\ runPrograms shapeIsOfType
       [{| matcher := SNumber; instructions := [replace (VNum (-1))] |};
        {| matcher := SPositive; instructions := [replace (VNum 7)] |}]
       defaultOptions (VNum 5) []
     = Ok (VNum (-1)) [].
Proof.
  destruct (engines_test_different_values shapeCoerce shapeIsOfType
              (fun v f => f v) SNumber SPositive (VNum (-1)) (VNum 7)
              (VNum 5) [] eq_refl) as [[Hold (run & Hmake & Hnew)] _].
  injection Hmake as <-.
  exact (conj eq_refl (conj Hold Hnew)).
Defined.
